(** * Checklist manager: a shallow embedding of [checklist.cpp]

    The program keeps a vector of tasks in memory, loads it from a
    line-oriented text file when the store is constructed and writes it
    back when the store is destroyed.  The embedding follows the source
    class by class: [Task], [FileHandler], [ChecklistManager], [Menu] and
    [main].  Input streams are modelled with their remaining characters
    and their state bits, because the loader and the menu rely on the
    exact behaviour of [operator>>], [ignore] and [std::getline]. *)

From Stdlib Require Import ZArith Ascii String List Lia.
From stdpp Require Import base option list gmap strings.

Local Open Scope Z_scope.

(** ** Characters and text *)

(** [std::string]: a sequence of [char]. *)
Abbreviation text := (list ascii).

Definition txt (s : string) : text := list_ascii_of_string s.

Definition code (c : ascii) : Z := Z.of_N (N_of_ascii c).

(** The line feed, ['\n']. *)
Definition nl : ascii := ascii_of_N 10.

(** [std::isspace] in the classic locale: space, and the controls
    ['\t'], ['\n'], ['\v'], ['\f'], ['\r']. *)
Definition isspace (c : ascii) : bool :=
  (code c =? 32) || ((9 <=? code c) && (code c <=? 13)).

Definition isdigit (c : ascii) : bool :=
  (48 <=? code c) && (code c <=? 57).

Definition digit_val (c : ascii) : Z := code c - 48.

Definition digit_char (d : Z) : ascii := ascii_of_N (Z.to_N (48 + d)).

(** ** The type [int] *)

Definition INT_MIN : Z := -2147483648.
Definition INT_MAX : Z := 2147483647.

Definition in_int (z : Z) : Prop := INT_MIN <= z <= INT_MAX.

(** Two's complement wrap-around of an arithmetic result into [int]. *)
Definition wrap_int (z : Z) : Z := (z + 2147483648) mod 4294967296 - 2147483648.

(** ** Input streams

    An [std::istream] reduced to what the program observes: the
    characters not yet extracted, [eofbit] and [failbit]. *)

Record istream := mkIstream {
  buf : text;
  eofbit : bool;
  failbit : bool
}.

Definition open_stream (s : text) : istream :=
  {| buf := s; eofbit := false; failbit := false |}.

Definition good (s : istream) : bool := negb (eofbit s) && negb (failbit s).

(** [setstate(failbit)] *)
Definition set_fail (s : istream) : istream :=
  {| buf := buf s; eofbit := eofbit s; failbit := true |}.

Fixpoint skipws (b : text) : text :=
  match b with
  | c :: r => if isspace c then skipws r else b
  | [] => []
  end.

(** [istream::sentry]: fails on a stream that is not good; otherwise,
    unless [noskip], skips white space and fails with [eofbit] and
    [failbit] when that reaches the end of input. *)
Definition sentry (noskip : bool) (s : istream) : istream * bool :=
  if negb (good s) then (set_fail s, false)
  else if noskip then (s, true)
  else
    match skipws (buf s) with
    | [] => ({| buf := []; eofbit := true; failbit := true |}, false)
    | b => ({| buf := b; eofbit := false; failbit := false |}, true)
    end.

(** The digit loop of [num_get]: accumulates the longest run of decimal
    digits; returns the accumulated value, the number of digits and the
    characters left. *)
Fixpoint scan_digits (b : text) (acc : Z) (cnt : nat) : Z * nat * text :=
  match b with
  | c :: r =>
      if isdigit c then scan_digits r (acc * 10 + digit_val c) (S cnt)
      else (acc, cnt, b)
  | [] => (acc, cnt, [])
  end.

Definition scan_sign (b : text) : bool * text :=
  match b with
  | c :: r =>
      if code c =? 45 then (true, r)
      else if code c =? 43 then (false, r)
      else (false, b)
  | [] => (false, [])
  end.

(** [operator>>(int&)].  [old] is the value the variable held before;
    it is what the variable still holds when the sentry fails.  When no
    digit is found the variable is set to 0; a value outside [int]
    (whether or not it fits the intermediate [long]) sets [failbit] and
    stores the nearest bound.  [eofbit] is set when the scan consumed
    the last character. *)
Definition extract_int (s : istream) (old : Z) : istream * Z :=
  let '(s1, ok) := sentry false s in
  if negb ok then (s1, old)
  else
    let '(neg, b1) := scan_sign (buf s1) in
    let '(n, cnt, b2) := scan_digits b1 0 0%nat in
    let at_eof := match b2 with [] => true | _ => false end in
    let v := if neg then - n else n in
    if (cnt =? 0)%nat then
      ({| buf := b2; eofbit := at_eof; failbit := true |}, 0)
    else if v <? INT_MIN then
      ({| buf := b2; eofbit := at_eof; failbit := true |}, INT_MIN)
    else if INT_MAX <? v then
      ({| buf := b2; eofbit := at_eof; failbit := true |}, INT_MAX)
    else
      ({| buf := b2; eofbit := at_eof; failbit := false |}, v).

(** [istream::ignore()]: discards one character; sets [eofbit] when
    there is none. *)
Definition ignore (s : istream) : istream :=
  let '(s1, ok) := sentry true s in
  if negb ok then s1
  else
    match buf s1 with
    | _ :: r => {| buf := r; eofbit := false; failbit := false |}
    | [] => {| buf := []; eofbit := true; failbit := false |}
    end.

(** Characters up to the first line feed, and what follows it; [None]
    when there is no line feed. *)
Fixpoint split_line (b : text) : text * option text :=
  match b with
  | [] => ([], None)
  | c :: r =>
      if code c =? 10 then ([], Some r)
      else let '(l, k) := split_line r in (c :: l, k)
  end.

(** [std::getline(is, str)].  When the sentry fails [str] keeps its old
    content; otherwise it is erased and filled up to the line feed
    (extracted, not stored) or the end of input ([eofbit]); [failbit]
    is set when nothing at all was extracted. *)
Definition getline (s : istream) (old : text) : istream * text :=
  let '(s1, ok) := sentry true s in
  if negb ok then (s1, old)
  else
    match split_line (buf s1) with
    | (l, Some r) => ({| buf := r; eofbit := false; failbit := false |}, l)
    | (l, None) =>
        ({| buf := []; eofbit := true;
            failbit := match l with [] => true | _ => false end |}, l)
    end.

(** ** Output formatting *)

(** The decimal digits of a non-negative number, most significant
    first, pushed in front of [acc]. *)
Fixpoint put_digits (fuel : nat) (n : Z) (acc : text) : text :=
  match fuel with
  | O => acc
  | S f =>
      let acc' := digit_char (n mod 10) :: acc in
      if n / 10 =? 0 then acc' else put_digits f (n / 10) acc'
  end.

(** [operator<<(int)]: a minus sign for a negative value, then the
    digits.  A number has no more decimal digits than binary ones. *)
Definition put_int (z : Z) : text :=
  let n := Z.abs z in
  let ds := put_digits (S (Z.to_nat (Z.log2 n))) n [] in
  if z <? 0 then ascii_of_N 45 :: ds else ds.

(** [operator<<(bool)] without [boolalpha] writes 1 or 0. *)
Definition put_bool (b : bool) : text := put_int (if b then 1 else 0).

(** ** Task *)

Record Task := mkTask {
  description : text;
  completed : bool;
  id : Z
}.

(** [Task::Task(int taskId, const std::string& desc)] *)
Definition newTask (taskId : Z) (desc : text) : Task :=
  {| id := taskId; description := desc; completed := false |}.

Definition toggleComplete (t : Task) : Task :=
  {| id := id t; description := description t; completed := negb (completed t) |}.

Definition isCompleted (t : Task) : bool := completed t.
Definition getId (t : Task) : Z := id t.
Definition getDescription (t : Task) : text := description t.

Definition setDescription (desc : text) (t : Task) : Task :=
  {| id := id t; description := desc; completed := completed t |}.

(** ** The world outside the process *)

(** [files] holds the files that can be opened for reading, with their
    content; a path outside it (a file that does not exist) cannot be
    opened.  [locked] holds the paths that cannot be opened for writing.
    A file that has been written can be read back. *)
Record FileSystem := mkFS {
  files : gmap string text;
  locked : gset string
}.

Record World := mkWorld {
  fs : FileSystem;
  cin : istream;
  cout : text;
  cerr : text
}.

(** ** Computations

    A computation runs in a world and either returns, throws a
    [std::exception] carrying its [what()], or is cut off because the
    model ran out of steps. *)
Inductive result (A : Type) : Type :=
  | Ok (a : A)
  | Throw (what : text)
  | OutOfFuel.
Arguments Ok {A} a.
Arguments Throw {A} what.
Arguments OutOfFuel {A}.

Definition M (A : Type) : Type := World -> result A * World.

Definition ret {A} (a : A) : M A := fun w => (Ok a, w).

Definition bind {A B} (c : M A) (k : A -> M B) : M B :=
  fun w =>
    match c w with
    | (Ok a, w') => k a w'
    | (Throw e, w') => (Throw e, w')
    | (OutOfFuel, w') => (OutOfFuel, w')
    end.

Definition throw {A} (what : text) : M A := fun w => (Throw what, w).

(** [try { c } catch (const std::exception& e) { h e }] *)
Definition try_catch {A} (c : M A) (h : text -> M A) : M A :=
  fun w =>
    match c w with
    | (Throw e, w') => h e w'
    | r => r
    end.

Notation "'do' x <- c ; k" := (bind c (fun x => k))
  (at level 10, x name, c at level 100, k at level 200,
   format "'[v' 'do'  x  <-  c ; '/' k ']'").

(** [std::cout << s] and [std::cerr << s] *)
Definition print (s : text) : M unit :=
  fun w => (Ok tt, {| fs := fs w; cin := cin w; cout := cout w ++ s; cerr := cerr w |}).

Definition eprint (s : text) : M unit :=
  fun w => (Ok tt, {| fs := fs w; cin := cin w; cout := cout w; cerr := cerr w ++ s |}).

(** An operation on [std::cin] that yields a value. *)
Definition on_cin {A} (f : istream -> istream * A) : M A :=
  fun w =>
    let '(s, a) := f (cin w) in
    (Ok a, {| fs := fs w; cin := s; cout := cout w; cerr := cerr w |}).

(** A string literal followed by a line feed. *)
Definition line (s : string) : text := txt s ++ [nl].

(** ** FileHandler *)

Record FileHandler := mkFileHandler { filename : string }.

(** The loop of [loadTasks].  [id], [completed] and [desc] are the
    locals declared before the loop; [desc] is carried from one round to
    the next because a [getline] whose sentry fails leaves it as it was.
    Each round that goes on has extracted at least one digit, so the
    length of the input bounds the number of rounds. *)
Fixpoint loadTasks_loop (fuel : nat) (file : istream) (id completed : Z)
    (desc : text) (tasks : list Task) : option (list Task) :=
  match fuel with
  | O => None
  | S fuel' =>
      let '(file1, id1) := extract_int file id in
      let '(file2, completed1) := extract_int file1 completed in
      if failbit file2 then Some tasks
      else
        let file3 := ignore file2 in
        let '(file4, desc1) := getline file3 desc in
        let task := newTask id1 desc1 in
        let task := if completed1 =? 0 then task else toggleComplete task in
        loadTasks_loop fuel' file4 id1 completed1 desc1 (tasks ++ [task])
  end.

(** What [loadTasks] makes of the content of a file it could open.  The
    two [int] locals start indeterminate; they are read only after a
    successful extraction has assigned them (see
    [loadTasks_loop_locals]). *)
Definition parse_tasks (content : text) : option (list Task) :=
  loadTasks_loop (S (length content)) (open_stream content) 0 0 [] [].

Definition loadTasks (this : FileHandler) : M (list Task) :=
  fun w =>
    match files (fs w) !! filename this with
    | None => (Ok [], w)
    | Some content =>
        match parse_tasks content with
        | Some tasks => (Ok tasks, w)
        | None => (OutOfFuel, w)
        end
    end.

(** One round of the loop of [saveTasks], appending to what the stream
    has received so far. *)
Definition put_task (out : text) (task : Task) : text :=
  out ++ put_int (getId task) ++ txt " " ++ put_bool (isCompleted task)
      ++ txt " " ++ getDescription task ++ [nl].

Definition write_tasks (tasks : list Task) : text := fold_left put_task tasks [].

Definition saveTasks (this : FileHandler) (tasks : list Task) : M unit :=
  fun w =>
    if decide (filename this ∈ locked (fs w)) then
      throw (txt "Unable to open file for writing") w
    else
      (Ok tt,
       {| fs := {| files := <[filename this := write_tasks tasks]> (files (fs w));
                   locked := locked (fs w) |};
          cin := cin w; cout := cout w; cerr := cerr w |}).

(** ** ChecklistManager *)

Record ChecklistManager := mkChecklistManager {
  tasks : list Task;
  fileHandler : FileHandler;
  nextId : Z
}.

Definition getNextId (this : ChecklistManager) : Z :=
  let maxId := fold_left (fun maxId task => Z.max maxId (getId task)) (tasks this) 0 in
  wrap_int (maxId + 1).

(** [ChecklistManager::ChecklistManager(const std::string& filename)] *)
Definition ChecklistManager_ctor (fname : string) : M ChecklistManager :=
  let fh := {| filename := fname |} in
  do loaded <- loadTasks fh;
  let this := {| tasks := loaded; fileHandler := fh; nextId := 1 |} in
  ret {| tasks := loaded; fileHandler := fh; nextId := getNextId this |}.

(** [ChecklistManager::~ChecklistManager()] *)
Definition ChecklistManager_dtor (this : ChecklistManager) : M unit :=
  try_catch
    (saveTasks (fileHandler this) (tasks this))
    (fun what => eprint (txt "Error saving tasks: " ++ what ++ [nl])).

Definition addTask (description : text) (this : ChecklistManager) : M ChecklistManager :=
  let this' :=
    {| tasks := tasks this ++ [newTask (nextId this) description];
       fileHandler := fileHandler this;
       nextId := wrap_int (nextId this + 1) |} in
  do _ <- print (line "Task added successfully!");
  ret this'.

(** [std::remove_if] moves the tasks that stay to the front, in order,
    and returns the position after them; [erase] drops the rest. *)
Definition removeTask (id : Z) (this : ChecklistManager) : M ChecklistManager :=
  let kept := filter (fun task => getId task <> id) (tasks this) in
  let it := length kept in
  if decide (it <> length (tasks this)) then
    do _ <- print (line "Task removed successfully!");
    ret {| tasks := kept; fileHandler := fileHandler this; nextId := nextId this |}
  else
    do _ <- print (line "Task not found!");
    ret this.

Definition toggleTask (id : Z) (this : ChecklistManager) : M ChecklistManager :=
  match list_find (fun task => getId task = id) (tasks this) with
  | Some (it, _) =>
      do _ <- print (line "Task status toggled!");
      ret {| tasks := alter toggleComplete it (tasks this);
             fileHandler := fileHandler this; nextId := nextId this |}
  | None =>
      do _ <- print (line "Task not found!");
      ret this
  end.

Definition show_task (out : text) (task : Task) : text :=
  out ++ txt "[" ++ put_int (getId task) ++ txt "] "
      ++ (if isCompleted task then txt "[X] " else txt "[ ] ")
      ++ getDescription task ++ [nl].

Definition listTasks (this : ChecklistManager) : M unit :=
  match tasks this with
  | [] => print (nl :: line "No tasks in the checklist.")
  | _ =>
      print (fold_left show_task (tasks this) (nl :: line "=== CHECKLIST ===")
               ++ line "=================")
  end.

(** ** Menu *)

Record Menu := mkMenu { manager : ChecklistManager }.

Definition displayMenu : M unit :=
  print (nl :: line "--- Checklist Manager ---" ++ line "1. Add Task"
            ++ line "2. Remove Task" ++ line "3. Toggle Task"
            ++ line "4. List Tasks" ++ line "5. Exit" ++ txt "Choice: ").

Definition Menu_ctor (fname : string) : M Menu :=
  do m <- ChecklistManager_ctor fname;
  ret {| manager := m |}.

Definition Menu_dtor (this : Menu) : M unit := ChecklistManager_dtor (manager this).

Section Run.

(** The value read from an [int] that was declared without an
    initialiser and that no extraction has assigned. *)
Variable indeterminate : Z.

(** The loop of [Menu::run]; [choice] and [input] are its locals,
    which keep their values between rounds.  None of the operations
    called here throws, a failed allocation apart: memory is taken to
    be unbounded, and [std::bad_alloc] is not modelled. *)
Fixpoint run_loop (fuel : nat) (choice : Z) (input : text) (this : Menu) : M Menu :=
  match fuel with
  | O => fun w => (OutOfFuel, w)
  | S fuel' =>
      do _ <- displayMenu;
      do choice <- on_cin (fun s => extract_int s choice);
      do _ <- on_cin (fun s => (ignore s, tt));
      if choice =? 1 then
        do _ <- print (txt "Enter task description: ");
        do input <- on_cin (fun s => getline s input);
        do m <- addTask input (manager this);
        run_loop fuel' choice input {| manager := m |}
      else if choice =? 2 then
        do _ <- print (txt "Enter task ID to remove: ");
        do id <- on_cin (fun s => extract_int s indeterminate);
        do m <- removeTask id (manager this);
        run_loop fuel' choice input {| manager := m |}
      else if choice =? 3 then
        do _ <- print (txt "Enter task ID to toggle: ");
        do id <- on_cin (fun s => extract_int s indeterminate);
        do m <- toggleTask id (manager this);
        run_loop fuel' choice input {| manager := m |}
      else if choice =? 4 then
        do _ <- listTasks (manager this);
        run_loop fuel' choice input this
      else if choice =? 5 then
        do _ <- print (line "Saving and exiting...");
        ret this
      else
        do _ <- print (line "Invalid choice!");
        run_loop fuel' choice input this
  end.

Definition run (fuel : nat) (this : Menu) : M Menu :=
  run_loop fuel indeterminate [] this.

(** [main]: the menu lives inside the [try] block, so its destructor
    (and with it the store's) runs when the end of the block is
    reached.  The handler is for what is thrown while the menu is built
    or runs; the error of the shutdown save is caught in the destructor
    of the store and does not get here.  The value returned is the exit
    code of the process. *)
Definition main (fuel : nat) : M Z :=
  try_catch
    (do menu <- Menu_ctor "checklist.txt";
     do menu <- run fuel menu;
     do _ <- Menu_dtor menu;
     ret 0)
    (fun what =>
       do _ <- eprint (txt "Error: " ++ what ++ [nl]);
       ret 1).

End Run.

(** * Vocabulary of the properties

    Definitions used to state and prove the properties below; none of
    them is part of the program. *)

(** ** Numerals *)

(** One round of the digit loop of [num_get]. *)
Definition step_digit (a : Z) (c : ascii) : Z := a * 10 + digit_val c.

(** A run of decimal digits. *)
Definition all_digits (ds : text) : Prop := Forall (fun c => isdigit c = true) ds.

(** The text does not begin with a character that would extend a numeral. *)
Definition no_digit_head (b : text) : Prop :=
  match b with
  | c :: _ => isdigit c = false
  | [] => True
  end.

(** The sign [operator<<] writes in front of the digits. *)
Definition sign_of (z : Z) : text := if z <? 0 then [ascii_of_N 45] else [].

(** ** Lines of the file *)

(** A line as [saveTasks] lays it out, for any integer flag. *)
Definition record_line (i f : Z) (d : text) : text :=
  put_int i ++ txt " " ++ put_int f ++ txt " " ++ d ++ [nl].

(** The task the loop of [loadTasks] builds from an id, a flag and a
    description. *)
Definition record_task (i f : Z) (d : text) : Task :=
  if f =? 0 then newTask i d else toggleComplete (newTask i d).

(** The line [saveTasks] writes for a task. *)
Definition encode (task : Task) : text :=
  record_line (getId task) (if isCompleted task then 1 else 0) (getDescription task).

(** A task whose id is a value of type [int] and whose description
    holds no line feed. *)
Definition wf_task (task : Task) : Prop :=
  in_int (getId task) /\ nl ∉ getDescription task.

(** Extraction of the two integers that start a record fails on this
    text: the loop of [loadTasks] stops here. *)
Definition header_fails (rest : text) : Prop :=
  failbit (extract_int (extract_int (open_stream rest) 0).1 0).1 = true.

(** A line of the file as three fields: id, flag, description. *)
Definition fields : Type := Z * Z * text.

(** Its text, the task the loader makes of it, and what makes it a
    line the loader reads back. *)
Definition fields_line (r : fields) : text := record_line r.1.1 r.1.2 r.2.
Definition fields_task (r : fields) : Task := record_task r.1.1 r.1.2 r.2.
Definition fields_wf (r : fields) : Prop := in_int r.1.1 /\ in_int r.1.2 /\ nl ∉ r.2.

(** The fields [saveTasks] writes for a task. *)
Definition task_fields (task : Task) : fields :=
  (getId task, if isCompleted task then 1 else 0, getDescription task).

(** ** Worlds and data of the examples *)

(** A world in which nothing has been printed yet. *)
Definition quiet_world (disk : FileSystem) (typed : text) : World :=
  {| fs := disk; cin := open_stream typed; cout := []; cerr := [] |}.

(** A disk without files, on which any file can be created. *)
Definition no_files : FileSystem := {| files := ∅; locked := ∅ |}.

(** The handler of the file [main] uses. *)
Definition checklist_txt : FileHandler := {| filename := "checklist.txt" |}.

(** Text with [|] standing for the line feed. *)
Definition lf (s : string) : text :=
  map (fun c => if code c =? 124 then nl else c) (txt s).

(** A disk with one file, which can be rewritten. *)
Definition one_file (name : string) (content : text) : FileSystem :=
  {| files := {[ name := content ]}; locked := ∅ |}.

(** The two tasks of the example of the specification. *)
Definition buy_milk : Task := {| id := 1; description := txt "Buy milk"; completed := false |}.
Definition walk_dog : Task := {| id := 2; description := txt "Walk dog"; completed := true |}.

(** Well-formedness of a concrete list of tasks, by evaluation. *)
Ltac wf_concrete :=
  repeat (apply Forall_cons; split;
          [split; [unfold in_int, INT_MIN, INT_MAX; simpl; lia
                  | apply (bool_decide_unpack _); by vm_compute] |]);
  apply List.Forall_nil.

(** ** The load, line by line

    The load as the words of the specification describe it: the file is
    cut into lines, every line has to parse on its own as
    [<integer id> <integer flag> <text>], and the first line that does
    not ends the load. *)

(** A line on its own: integers are read as [operator>>] reads them;
    the text is what follows the separator after the flag. *)
Definition parse_line (l : text) : option Task :=
  let '(s1, i) := extract_int (open_stream l) 0 in
  let '(s2, f) := extract_int s1 0 in
  if failbit s2 then None else Some (record_task i f (drop 1 (buf s2))).

(** The lines of a text; [cur] is the line being collected. *)
Fixpoint lines_from (cur : text) (b : text) : list text :=
  match b with
  | [] => match cur with [] => [] | _ => [cur] end
  | c :: r =>
      if code c =? 10 then cur :: lines_from [] r
      else lines_from (cur ++ [c]) r
  end.

(** The tasks of the lines up to the first one that does not parse. *)
Fixpoint load_lines (ls : list text) : list Task :=
  match ls with
  | [] => []
  | l :: ls' =>
      match parse_line l with
      | Some task => task :: load_lines ls'
      | None => []
      end
  end.

(** The load, line by line. *)
Definition load_by_lines (content : text) : list Task :=
  load_lines (lines_from [] content).

(** A file whose second line is empty. *)
Definition blank_line_file : text := lf "1 0 Buy milk||2 1 Walk dog|".

(** A file whose first line holds an id and nothing else. *)
Definition short_line_file : text := lf "1|2 0 x|".

(** Two good lines followed by a line that starts with a word. *)
Definition garbled_tail : text := lf "two 1 Walk dog|3 0 Call home|".

(** A world whose checklist file is two good lines and that tail. *)
Definition garbled_world : World :=
  quiet_world (one_file "checklist.txt" (lf "1 0 Buy milk|7 5 Pay rent|" ++ garbled_tail)) [].

(** ** Records as the loader reads them

    The loop of [loadTasks] takes its input from the stream, not line
    by line.  What it consumes in one round is: white space, the id,
    white space, the flag, one more character, and the text up to the
    next line feed. *)
Record entry := mkEntry {
  lead : text;
  entry_id : Z;
  gap : text;
  entry_flag : Z;
  sep : ascii;
  entry_desc : text
}.

(** The text of a record in the file. *)
Definition entry_text (e : entry) : text :=
  lead e ++ put_int (entry_id e) ++ gap e ++ put_int (entry_flag e)
  ++ sep e :: entry_desc e ++ [nl].

(** The task the loader makes of it. *)
Definition entry_task (e : entry) : Task :=
  record_task (entry_id e) (entry_flag e) (entry_desc e).

(** What makes the text a record: [lead] and [gap] are white space
    (line feeds included), [gap] is not empty, the two numbers are
    values of type [int], the character after the flag is not a digit,
    and the description holds no line feed. *)
Definition entry_wf (e : entry) : Prop :=
  Forall (fun c => isspace c = true) (lead e)
  /\ Forall (fun c => isspace c = true) (gap e) /\ gap e <> []
  /\ in_int (entry_id e) /\ in_int (entry_flag e)
  /\ isdigit (sep e) = false
  /\ nl ∉ entry_desc e.

(** A file with an id alone on its first line, a blank line, a record
    with white space in front and a comma after the flag, and then a
    line that starts with a word. *)
Definition ragged_entries : list entry :=
  [ {| lead := []; entry_id := 1; gap := [nl]; entry_flag := 2;
       sep := " "; entry_desc := txt "0 x" |};
    {| lead := nl :: txt " "; entry_id := 3; gap := txt "  "; entry_flag := 0;
       sep := ","; entry_desc := txt "Walk dog" |} ].

Definition ragged_tail : text := lf "oops|4 0 Never read|".

Definition ragged_world : World :=
  quiet_world (one_file "checklist.txt" (lf "1|2 0 x|| 3  0,Walk dog|" ++ ragged_tail)) [].

(** ** The store *)

(** [M] is the greatest id that occurs in the sequence. *)
Definition is_max_id (M : Z) (tasks : list Task) : Prop :=
  (exists task, task ∈ tasks /\ getId task = M)
  /\ forall task, task ∈ tasks -> getId task <= M.

(** The search for the greatest id in [getNextId], from [m0]. *)
Definition fold_max (tasks : list Task) (m0 : Z) : Z :=
  fold_left (fun maxId task => Z.max maxId (getId task)) tasks m0.

(** A file whose only id is negative. *)
Definition negative_id_file : text := lf "-5 0 Pay rent|".

(** A file with the ids 3, 7 and 1. *)
Definition three_ids_file : text := lf "3 0 Buy milk|7 1 Walk dog|1 0 Pay rent|".

(** The world after [s] has been written to [std::cout]. *)
Definition said (s : text) (w : World) : World :=
  {| fs := fs w; cin := cin w; cout := cout w ++ s; cerr := cerr w |}.

(** [addTask] called once for each description, in order. *)
Fixpoint addTasks (descriptions : list text) (this : ChecklistManager)
    : M ChecklistManager :=
  match descriptions with
  | [] => ret this
  | description :: others =>
      do this <- addTask description this;
      addTasks others this
  end.

(** The world after [n] reports of success on [std::cout]. *)
Definition said_added (n : nat) (w : World) : World :=
  Nat.iter n (said (line "Task added successfully!")) w.

(** A store as the constructor leaves it when nothing was loaded. *)
Definition fresh_store : ChecklistManager :=
  {| tasks := []; fileHandler := checklist_txt; nextId := 1 |}.

(** A store with two tasks. *)
Definition two_tasks : ChecklistManager :=
  {| tasks := [buy_milk; walk_dog]; fileHandler := checklist_txt; nextId := 3 |}.

(** The first task with the given id, and its position. *)
Definition first_with_id (id : Z) (tasks : list Task) : option (nat * Task) :=
  list_find (fun task => getId task = id) tasks.

(** The world after [s] has been written to [std::cerr]. *)
Definition complained (s : text) (w : World) : World :=
  {| fs := fs w; cin := cin w; cout := cout w; cerr := cerr w ++ s |}.

(** The [what()] of the exception of [saveTasks]. *)
Definition cannot_write : text := txt "Unable to open file for writing".

(** A disk on which the checklist file cannot be opened for writing. *)
Definition locked_disk : FileSystem :=
  {| files := ∅; locked := {[ "checklist.txt" ]} |}.

(** ** Sessions *)

(** What the user asks for in one round of the menu, short of leaving. *)
Inductive command : Type :=
  | Add (description : text)
  | Remove (id : Z)
  | Toggle (id : Z)
  | List
  | Other (choice : Z).

(** What the user types for it. *)
Definition typed (c : command) : text :=
  match c with
  | Add description => lf "1|" ++ description ++ [nl]
  | Remove id => lf "2|" ++ put_int id ++ [nl]
  | Toggle id => lf "3|" ++ put_int id ++ [nl]
  | List => lf "4|"
  | Other choice => put_int choice ++ [nl]
  end.

(** A command whose text the menu reads back: a description without
    line feed, an id of type [int], a choice other than 1 to 5. *)
Definition wf_command (c : command) : Prop :=
  match c with
  | Add description => nl ∉ description
  | Remove id | Toggle id => in_int id
  | List => True
  | Other choice => in_int choice /\ ~ (1 <= choice <= 5)
  end.

(** What it does to the store. *)
Definition effect (m : ChecklistManager) (c : command) : ChecklistManager :=
  match c with
  | Add description =>
      {| tasks := tasks m ++ [newTask (nextId m) description];
         fileHandler := fileHandler m; nextId := wrap_int (nextId m + 1) |}
  | Remove id =>
      {| tasks := filter (fun task => getId task <> id) (tasks m);
         fileHandler := fileHandler m; nextId := nextId m |}
  | Toggle id =>
      match first_with_id id (tasks m) with
      | Some (it, _) =>
          {| tasks := alter toggleComplete it (tasks m);
             fileHandler := fileHandler m; nextId := nextId m |}
      | None => m
      end
  | List | Other _ => m
  end.

(** The second world differs from the first in [std::cin] and
    [std::cout] at most. *)
Definition same_outside (w w' : World) : Prop := fs w' = fs w /\ cerr w' = cerr w.

(** The world after an operation has left [std::cin] in state [s]. *)
Definition with_cin (s : istream) (w : World) : World :=
  {| fs := fs w; cin := s; cout := cout w; cerr := cerr w |}.

(** What the user types in a session: the commands, then 5. *)
Definition script (cmds : list command) : text := concat (map typed cmds) ++ lf "5|".

(** The session of the specification: two tasks on file; the user
    toggles task 1, removes task 2 and leaves. *)
Definition example_session : World :=
  quiet_world (one_file "checklist.txt" (lf "1 0 Buy milk|2 1 Walk dog|"))
    (lf "3|1|2|2|5|").

(** ** The rest of a load *)

(** What the loop of [loadTasks] adds to its vector from the stream
    [file] on, [desc] being the description read last. *)
Definition load_from (file : istream) (desc : text) : list Task :=
  default [] (loadTasks_loop (S (length (buf file))) file 0 0 desc []).

(** The description the loop holds after the lines [rs], having held
    [d0] before them. *)
Definition last_description (d0 : text) (rs : list fields) : text :=
  match last rs with
  | Some r => r.2
  | None => d0
  end.

(** A task whose description holds a line feed. *)
Definition two_line_task : Task :=
  {| id := 3; description := lf "Pay|rent"; completed := false |}.

(** The world after [saveTasks] has written [tasks]. *)
Definition saved (this : FileHandler) (tasks : list Task) (w : World) : World :=
  {| fs := {| files := <[filename this := write_tasks tasks]> (files (fs w));
              locked := locked (fs w) |};
     cin := cin w; cout := cout w; cerr := cerr w |}.

(** ** Invariants of the store *)

(** Every id in the store is below the counter. *)
Definition ids_below (this : ChecklistManager) : Prop :=
  Forall (fun task => getId task < nextId this) (tasks this).

(** No two tasks of the store have the same id. *)
Definition unique_ids (this : ChecklistManager) : Prop :=
  NoDup (map getId (tasks this)).

(** The counter is a value of type [int], every id is below it and no
    id occurs twice. *)
Definition store_ok (this : ChecklistManager) : Prop :=
  in_int (nextId this) /\ ids_below this /\ unique_ids this.

(** A store with three tasks, in the state [addTask] leaves. *)
Definition three_tasks : ChecklistManager :=
  {| tasks := [buy_milk; walk_dog;
               {| id := 3; description := txt "Pay rent"; completed := false |}];
     fileHandler := checklist_txt; nextId := 4 |}.

(** ** The listing *)

(** The line [listTasks] prints for a task. *)
Definition row (task : Task) : text :=
  txt "[" ++ put_int (getId task) ++ txt "] "
  ++ (if isCompleted task then txt "[X] " else txt "[ ] ")
  ++ getDescription task ++ [nl].


(** * Properties *)

(** ** Digits and decimal numerals *)

Lemma digit_char_spec d :
  0 <= d <= 9 ->
  isdigit (digit_char d) = true /\ digit_val (digit_char d) = d
  /\ isspace (digit_char d) = false /\ code (digit_char d) <> 45
  /\ code (digit_char d) <> 43.
Proof.
  intros Hd.
  assert (d = 0 \/ d = 1 \/ d = 2 \/ d = 3 \/ d = 4 \/ d = 5 \/ d = 6
          \/ d = 7 \/ d = 8 \/ d = 9) as Hc by lia.
  repeat (destruct Hc as [-> | Hc]; [now vm_compute |]).
  subst d. now vm_compute.
Qed.

Lemma scan_digits_app ds rest acc cnt :
  all_digits ds -> no_digit_head rest ->
  scan_digits (ds ++ rest) acc cnt
  = (fold_left step_digit ds acc, (cnt + length ds)%nat, rest).
Proof.
  intros Hds Hrest. revert acc cnt.
  induction Hds as [| c ds Hc _ IH]; intros acc cnt; simpl.
  - rewrite Nat.add_0_r. destruct rest as [| c r]; [done |].
    simpl in Hrest. simpl. by rewrite Hrest.
  - rewrite Hc, IH. f_equal. f_equal. lia.
Qed.

Lemma put_digits_spec fuel n acc :
  0 <= n ->
  exists ds, put_digits fuel n acc = ds ++ acc /\ all_digits ds
    /\ (0 < fuel -> ds <> [])%nat
    /\ (n < 10 ^ Z.of_nat fuel ->
        forall a, fold_left step_digit ds a = a * 10 ^ Z.of_nat (length ds) + n).
Proof.
  revert n acc. induction fuel as [| fuel IH]; intros n acc Hn.
  - exists []. repeat split; [constructor | lia |].
    simpl. intros Hlt a. lia.
  - assert (0 <= n mod 10 <= 9) as Hm by (pose proof (Z.mod_pos_bound n 10); lia).
    destruct (digit_char_spec _ Hm) as (Hdig & Hval & _).
    assert (0 <= n / 10) as Hq by (apply Z.div_pos; lia).
    pose proof (Z.div_mod n 10 ltac:(lia)) as Hdm.
    simpl. destruct (Z.eqb_spec (n / 10) 0) as [Hz | Hnz].
    + exists [digit_char (n mod 10)]. repeat split.
      * constructor; [done | constructor].
      * done.
      * intros _ a. simpl. unfold step_digit. rewrite Hval. lia.
    + destruct (IH (n / 10) (digit_char (n mod 10) :: acc) Hq)
        as (ds & Heq & Hall & Hne & Hfold).
      exists (ds ++ [digit_char (n mod 10)]). repeat split.
      * by rewrite Heq, <- app_assoc.
      * apply Forall_app. split; [done |]. constructor; [done | constructor].
      * intros _. destruct ds; done.
      * intros Hlt a. rewrite fold_left_app. simpl.
        rewrite Hfold.
        -- unfold step_digit at 1. rewrite Hval, length_app. simpl.
           rewrite Nat2Z.inj_add, Z.pow_add_r by lia. simpl Z.of_nat. lia.
        -- rewrite Nat2Z.inj_succ, Z.pow_succ_r in Hlt by lia. lia.
Qed.

Lemma isdigit_not_sign c :
  isdigit c = true -> isspace c = false /\ code c <> 45 /\ code c <> 43.
Proof. unfold isdigit, isspace. lia. Qed.

Lemma put_int_spec z :
  exists ds, put_int z = sign_of z ++ ds /\ all_digits ds /\ ds <> []
    /\ fold_left step_digit ds 0 = Z.abs z.
Proof.
  unfold put_int, sign_of.
  set (n := Z.abs z). set (fuel := S (Z.to_nat (Z.log2 n))).
  assert (0 <= n) as Hn by (subst n; lia).
  destruct (put_digits_spec fuel n [] Hn) as (ds & Heq & Hall & Hne & Hfold).
  exists ds. rewrite Heq, app_nil_r.
  split; [by destruct (z <? 0) |]. split; [done |].
  split; [apply Hne; subst fuel; lia |].
  rewrite Hfold; [lia |].
  subst fuel. rewrite Nat2Z.inj_succ, Z2Nat.id by apply Z.log2_nonneg.
  destruct (Z.eq_dec n 0) as [-> | Hnz]; [done |].
  pose proof (Z.log2_spec n ltac:(lia)) as [_ Hlt].
  eapply Z.lt_le_trans; [exact Hlt |].
  apply Z.pow_le_mono_l. pose proof (Z.log2_nonneg n). lia.
Qed.

Lemma skipws_app ws b :
  Forall (fun c => isspace c = true) ws ->
  skipws (ws ++ b) = skipws b.
Proof. induction 1 as [| c ws Hc _ IH]; simpl; [done | by rewrite Hc]. Qed.

Lemma sentry_skip ws c b :
  Forall (fun c => isspace c = true) ws -> isspace c = false ->
  sentry false (open_stream (ws ++ c :: b)) = (open_stream (c :: b), true).
Proof.
  intros Hws Hc. unfold sentry, open_stream, good. cbn [eofbit failbit buf negb andb].
  rewrite skipws_app by done. cbn [skipws]. by rewrite Hc.
Qed.

Lemma scan_sign_digit d b : isdigit d = true -> scan_sign (d :: b) = (false, d :: b).
Proof.
  intros Hd. destruct (isdigit_not_sign _ Hd) as (_ & Hm & Hp).
  cbn [scan_sign].
  destruct (Z.eqb_spec (code d) 45); [done |].
  by destruct (Z.eqb_spec (code d) 43).
Qed.

Lemma range_check (v : Z) (s1 s2 s3 s4 : istream * Z) (cnt : nat) :
  in_int v -> (0 < cnt)%nat ->
  (if (cnt =? 0)%nat then s1 else if v <? INT_MIN then s2
   else if INT_MAX <? v then s3 else s4) = s4.
Proof.
  intros [Hlo Hhi] Hc.
  destruct (Nat.eqb_spec cnt 0); [lia |].
  destruct (Z.ltb_spec v INT_MIN); [lia |].
  by destruct (Z.ltb_spec INT_MAX v); [lia |].
Qed.

(** Extraction reads back what [operator<<] wrote, after any white space. *)
Lemma extract_int_put_int ws z rest old :
  Forall (fun c => isspace c = true) ws -> in_int z -> no_digit_head rest ->
  extract_int (open_stream (ws ++ put_int z ++ rest)) old
  = ({| buf := rest; eofbit := match rest with [] => true | _ => false end;
        failbit := false |}, z).
Proof.
  intros Hws Hz Hrest.
  destruct (put_int_spec z) as (ds & Heq & Hall & Hne & Hval).
  destruct ds as [| d ds]; [done |].
  pose proof (Forall_inv Hall) as Hd. cbn beta in Hd.
  destruct (isdigit_not_sign _ Hd) as (Hsp & _).
  unfold extract_int. rewrite Heq. unfold sign_of.
  destruct (Z.ltb_spec z 0) as [Hneg | Hpos].
  - change (ws ++ ([ascii_of_N 45] ++ d :: ds) ++ rest)
      with (ws ++ ascii_of_N 45 :: (d :: ds) ++ rest).
    rewrite sentry_skip by done. cbn [negb buf open_stream].
    change (scan_sign (ascii_of_N 45 :: (d :: ds) ++ rest))
      with (true, (d :: ds) ++ rest).
    cbn iota. rewrite (scan_digits_app (d :: ds) rest 0 0%nat Hall Hrest), Hval.
    rewrite range_check; [| unfold in_int in *; lia | simpl; lia].
    do 2 f_equal. lia.
  - change (ws ++ ([] ++ d :: ds) ++ rest) with (ws ++ d :: ds ++ rest).
    rewrite sentry_skip by done. cbn [negb buf open_stream].
    rewrite scan_sign_digit by done.
    change (d :: ds ++ rest) with ((d :: ds) ++ rest).
    cbn iota. rewrite (scan_digits_app (d :: ds) rest 0 0%nat Hall Hrest), Hval.
    rewrite range_check; [| unfold in_int in *; lia | simpl; lia].
    do 2 f_equal. lia.
Qed.

(** ** Lines and records *)

Lemma code_nl c : code c = 10 <-> c = nl.
Proof.
  split; [| by intros ->].
  intros H. rewrite <- (ascii_N_embedding c). unfold nl. f_equal.
  unfold code in H. lia.
Qed.

Lemma split_line_app d rest :
  nl ∉ d -> split_line (d ++ nl :: rest) = (d, Some rest).
Proof.
  induction d as [| c d IH]; intros Hd; [done |].
  apply not_elem_of_cons in Hd as [Hc Hd].
  cbn [app split_line].
  destruct (Z.eqb_spec (code c) 10) as [E | _].
  - by apply code_nl in E.
  - by rewrite IH.
Qed.

Lemma space_is_space : Forall (fun c => isspace c = true) (txt " ").
Proof. by repeat constructor. Qed.

Lemma ignore_cons c b : ignore (open_stream (c :: b)) = open_stream b.
Proof. reflexivity. Qed.

Lemma getline_line d rest old :
  nl ∉ d -> getline (open_stream (d ++ nl :: rest)) old = (open_stream rest, d).
Proof.
  intros Hd. unfold getline, sentry, good, open_stream.
  cbn [negb andb eofbit failbit buf]. by rewrite split_line_app.
Qed.

Lemma extract_int_field ws z c rest old :
  Forall (fun c => isspace c = true) ws -> in_int z -> isdigit c = false ->
  extract_int (open_stream (ws ++ put_int z ++ c :: rest)) old
  = (open_stream (c :: rest), z).
Proof. intros Hws Hz Hc. by rewrite extract_int_put_int. Qed.

Lemma loadTasks_round fuel i f d rest i0 c0 d0 acc :
  in_int i -> in_int f -> nl ∉ d ->
  loadTasks_loop (S fuel) (open_stream (record_line i f d ++ rest)) i0 c0 d0 acc
  = loadTasks_loop fuel (open_stream rest) i f d (acc ++ [record_task i f d]).
Proof.
  intros Hi Hf Hd. cbn [loadTasks_loop]. unfold record_line.
  repeat rewrite <- app_assoc.
  change (put_int i ++ txt " " ++ put_int f ++ txt " " ++ d ++ [nl] ++ rest)
    with ([] ++ put_int i ++ " "%char :: (put_int f ++ " "%char :: d ++ nl :: rest)).
  rewrite extract_int_field; [| constructor | done | done].
  change (open_stream (" "%char :: put_int f ++ ?r))
    with (open_stream (txt " " ++ put_int f ++ r)).
  rewrite extract_int_field; [| apply space_is_space | done | done].
  cbn [failbit open_stream].
  change {| buf := ?b; eofbit := false; failbit := false |} with (open_stream b).
  by rewrite ignore_cons, getline_line.
Qed.

(** ** What [saveTasks] writes *)

Lemma record_task_encode task :
  record_task (getId task) (if isCompleted task then 1 else 0) (getDescription task) = task.
Proof. by destruct task as [d [] i]. Qed.

Lemma fold_put_task tasks out :
  fold_left put_task tasks out = out ++ concat (map encode tasks).
Proof.
  revert out. induction tasks as [| t tasks IH]; intros out; simpl.
  - by rewrite app_nil_r.
  - rewrite IH. unfold put_task, encode, record_line, put_bool.
    by repeat rewrite <- app_assoc.
Qed.

Lemma write_tasks_concat tasks : write_tasks tasks = concat (map encode tasks).
Proof. apply fold_put_task. Qed.

Lemma in_int_flag (b : bool) : in_int (if b then 1 else 0).
Proof. unfold in_int, INT_MIN, INT_MAX. destruct b; lia. Qed.

(** ** The loop of [loadTasks] terminates *)

Lemma skipws_length b : (length (skipws b) <= length b)%nat.
Proof.
  induction b as [| c b IH]; simpl; [done |].
  destruct (isspace c); simpl; lia.
Qed.

Lemma scan_sign_length b : (length (scan_sign b).2 <= length b)%nat.
Proof.
  destruct b as [| c b]; simpl; [done |].
  destruct (code c =? 45); [simpl; lia |].
  destruct (code c =? 43); simpl; lia.
Qed.

Lemma scan_digits_length b acc cnt :
  (length (scan_digits b acc cnt).2 + (scan_digits b acc cnt).1.2
   = length b + cnt)%nat.
Proof.
  revert acc cnt. induction b as [| c b IH]; intros acc cnt; simpl; [done |].
  destruct (isdigit c); simpl; [| done]. rewrite IH. lia.
Qed.

(** The state of the stream after an extraction does not depend on the
    value the variable held. *)
Lemma extract_int_stream s old1 old2 :
  (extract_int s old1).1 = (extract_int s old2).1.
Proof.
  unfold extract_int. destruct (sentry false s) as [s1 []]; cbn [negb]; [| done].
  destruct (scan_sign (buf s1)) as [neg b1].
  destruct (scan_digits b1 0 0%nat) as [[n cnt] b2].
  destruct (cnt =? 0)%nat; [done |].
  destruct ((if neg then - n else n) <? INT_MIN); [done |].
  by destruct (INT_MAX <? (if neg then - n else n)).
Qed.

Lemma sentry_failed noskip s : (sentry noskip s).2 = false -> failbit (sentry noskip s).1 = true.
Proof.
  unfold sentry. destruct (negb (good s)); [done |].
  destruct noskip; [done |]. by destruct (skipws (buf s)).
Qed.

Lemma sentry_length noskip s : (length (buf (sentry noskip s).1) <= length (buf s))%nat.
Proof.
  unfold sentry. destruct (negb (good s)); [done |].
  destruct noskip; [done |].
  pose proof (skipws_length (buf s)).
  destruct (skipws (buf s)); simpl in *; lia.
Qed.

Lemma extract_int_failed s old :
  failbit s = true -> failbit (extract_int s old).1 = true.
Proof.
  intros Hf. unfold extract_int, sentry, good. rewrite Hf.
  by rewrite andb_false_r.
Qed.

(** A successful extraction has consumed at least one digit. *)
Lemma extract_int_shrinks s old :
  failbit (extract_int s old).1 = false ->
  (length (buf (extract_int s old).1) < length (buf s))%nat.
Proof.
  unfold extract_int.
  pose proof (sentry_failed false s) as Hfail.
  pose proof (sentry_length false s) as Hlen.
  destruct (sentry false s) as [s1 ok]. cbn [fst snd] in *.
  destruct ok; cbn [negb fst]; [| intros H; rewrite Hfail in H; done].
  pose proof (scan_sign_length (buf s1)) as Hsign.
  destruct (scan_sign (buf s1)) as [neg b1]. cbn [snd] in Hsign.
  pose proof (scan_digits_length b1 0 0%nat) as Hdig.
  destruct (scan_digits b1 0 0%nat) as [[n cnt] b2]. cbn [fst snd] in Hdig.
  destruct (Nat.eqb_spec cnt 0); [done |].
  destruct ((if neg then - n else n) <? INT_MIN); [done |].
  destruct (INT_MAX <? (if neg then - n else n)); [done |].
  cbn [fst buf]. lia.
Qed.

Lemma ignore_length s : (length (buf (ignore s)) <= length (buf s))%nat.
Proof.
  unfold ignore. pose proof (sentry_length true s).
  destruct (sentry true s) as [s1 []]; cbn [negb fst] in *; [| done].
  destruct (buf s1); simpl in *; lia.
Qed.

Lemma split_line_length b :
  (length (default [] (split_line b).2) <= length b)%nat.
Proof.
  induction b as [| c b IH]; simpl; [done |].
  destruct (code c =? 10); [simpl; lia |].
  destruct (split_line b) as [l k]. simpl in *. lia.
Qed.

Lemma getline_length s old : (length (buf (getline s old).1) <= length (buf s))%nat.
Proof.
  unfold getline. pose proof (sentry_length true s).
  destruct (sentry true s) as [s1 []]; cbn [negb fst] in *; [| done].
  pose proof (split_line_length (buf s1)).
  destruct (split_line (buf s1)) as [l [r |]]; simpl in *; lia.
Qed.

Lemma loadTasks_loop_total fuel file i c d acc :
  (length (buf file) < fuel)%nat ->
  is_Some (loadTasks_loop fuel file i c d acc).
Proof.
  revert file i c d acc.
  induction fuel as [| fuel IH]; intros file i c d acc Hlt; [lia |].
  cbn [loadTasks_loop].
  pose proof (extract_int_shrinks file i) as H1.
  pose proof (extract_int_failed (extract_int file i).1 c) as H1'.
  destruct (extract_int file i) as [file1 i1]. cbn [fst] in *.
  pose proof (extract_int_shrinks file1 c) as H2.
  destruct (extract_int file1 c) as [file2 c1]. cbn [fst] in *.
  destruct (failbit file2) eqn:Hf2; [done |].
  pose proof (ignore_length file2) as H3.
  pose proof (getline_length (ignore file2) d) as H4.
  destruct (getline (ignore file2) d) as [file4 d1]. cbn [fst] in *.
  apply IH.
  destruct (failbit file1); [by specialize (H1' eq_refl) |].
  specialize (H1 eq_refl). specialize (H2 eq_refl). lia.
Qed.

Lemma loadTasks_loop_fuel fuel fuel' file i c d acc r :
  loadTasks_loop fuel file i c d acc = Some r -> (fuel <= fuel')%nat ->
  loadTasks_loop fuel' file i c d acc = Some r.
Proof.
  revert fuel' file i c d acc.
  induction fuel as [| fuel IH]; intros fuel' file i c d acc H Hle; [done |].
  destruct fuel' as [| fuel']; [lia |].
  cbn [loadTasks_loop] in *.
  destruct (extract_int file i) as [file1 i1].
  destruct (extract_int file1 c) as [file2 c1].
  destruct (failbit file2); [done |].
  destruct (getline (ignore file2) d) as [file4 d1].
  apply IH; [done | lia].
Qed.

Lemma extract_int_value s old1 old2 :
  failbit (extract_int s old1).1 = false -> extract_int s old1 = extract_int s old2.
Proof.
  unfold extract_int. pose proof (sentry_failed false s) as Hfail.
  destruct (sentry false s) as [s1 []]; cbn [negb fst snd] in *; [done |].
  intros H. by rewrite Hfail in H.
Qed.

(** The locals [id] and [completed] are assigned before they are read:
    their initial values do not matter. *)
Lemma loadTasks_loop_locals fuel file i c i' c' d acc :
  loadTasks_loop fuel file i c d acc = loadTasks_loop fuel file i' c' d acc.
Proof.
  destruct fuel as [| fuel]; [done |]. cbn [loadTasks_loop].
  pose proof (extract_int_value file i i') as Hv1.
  pose proof (extract_int_stream file i i') as Hs1.
  destruct (extract_int file i) as [file1 i1], (extract_int file i') as [file1' i1'].
  cbn [fst] in *. subst file1'.
  pose proof (extract_int_failed file1 c) as Hf.
  pose proof (extract_int_failed file1 c') as Hf'.
  pose proof (extract_int_value file1 c c') as Hv2.
  pose proof (extract_int_stream file1 c c') as Hs2.
  destruct (extract_int file1 c) as [file2 c1], (extract_int file1 c') as [file2' c1'].
  cbn [fst] in *. subst file2'.
  destruct (failbit file2) eqn:E2; [done |].
  specialize (Hv2 eq_refl). injection Hv2 as ->.
  destruct (failbit file1) eqn:E1; [by specialize (Hf eq_refl) |].
  specialize (Hv1 eq_refl). by injection Hv1 as ->.
Qed.

(** ** Reading a file of record lines *)

Lemma loadTasks_loop_stop fuel rest i c d acc :
  header_fails rest -> loadTasks_loop (S fuel) (open_stream rest) i c d acc = Some acc.
Proof.
  unfold header_fails. intros H. cbn [loadTasks_loop].
  rewrite (surjective_pairing (extract_int (open_stream rest) i)).
  rewrite (surjective_pairing (extract_int _ c)).
  rewrite (extract_int_stream _ c 0), (extract_int_stream _ i 0).
  by rewrite H.
Qed.

(** Nothing that starts, after white space, with a character that is
    neither a sign nor a digit is the head of a record; neither is the
    end of the input. *)
Lemma header_fails_eof ws :
  Forall (fun c => isspace c = true) ws -> header_fails ws.
Proof.
  intros Hws. unfold header_fails.
  apply extract_int_failed.
  unfold extract_int, sentry, open_stream, good. cbn [negb andb eofbit failbit buf].
  rewrite <- (app_nil_r ws), skipws_app by done. done.
Qed.

Lemma header_fails_other ws c rest :
  Forall (fun c => isspace c = true) ws ->
  isspace c = false -> isdigit c = false -> code c <> 45 -> code c <> 43 ->
  header_fails (ws ++ c :: rest).
Proof.
  intros Hws Hsp Hdig Hm Hp. unfold header_fails.
  apply extract_int_failed.
  unfold extract_int. rewrite sentry_skip by done.
  cbn [negb open_stream buf scan_sign].
  destruct (Z.eqb_spec (code c) 45); [done |].
  destruct (Z.eqb_spec (code c) 43); [done |].
  cbn [scan_digits]. by rewrite Hdig.
Qed.

Lemma loadTasks_loop_lines rs fuel rest i0 c0 d0 acc :
  Forall fields_wf rs ->
  exists i1 c1 d1,
    loadTasks_loop (length rs + fuel)
      (open_stream (concat (map fields_line rs) ++ rest)) i0 c0 d0 acc
    = loadTasks_loop fuel (open_stream rest) i1 c1 d1 (acc ++ map fields_task rs).
Proof.
  intros Hwf. revert i0 c0 d0 acc.
  induction Hwf as [| [[i f] d] rs (Hi & Hf & Hd) _ IH]; intros i0 c0 d0 acc.
  - exists i0, c0, d0. by rewrite app_nil_r.
  - cbn [map concat length Nat.add]. rewrite <- app_assoc.
    unfold fields_line at 1. cbn [fst snd] in *.
    rewrite loadTasks_round by done.
    destruct (IH i f d (acc ++ [record_task i f d])) as (i1 & c1 & d1 & ->).
    exists i1, c1, d1. by rewrite <- app_assoc.
Qed.

Lemma record_line_length i f d : (0 < length (record_line i f d))%nat.
Proof. unfold record_line. repeat rewrite length_app. simpl. lia. Qed.

Lemma lines_length rs : (length rs <= length (concat (map fields_line rs)))%nat.
Proof.
  induction rs as [| r rs IH]; simpl; [done |].
  rewrite length_app. pose proof (record_line_length r.1.1 r.1.2 r.2).
  unfold fields_line at 1. lia.
Qed.

Lemma parse_tasks_lines rs rest :
  Forall fields_wf rs -> header_fails rest ->
  parse_tasks (concat (map fields_line rs) ++ rest) = Some (map fields_task rs).
Proof.
  intros Hwf Hrest. unfold parse_tasks.
  destruct (loadTasks_loop_lines rs 1 rest 0 0 [] [] Hwf) as (i1 & c1 & d1 & H).
  rewrite loadTasks_loop_stop in H by done.
  eapply loadTasks_loop_fuel; [exact H |].
  rewrite length_app. pose proof (lines_length rs). lia.
Qed.

Lemma write_tasks_lines tasks :
  write_tasks tasks = concat (map fields_line (map task_fields tasks)).
Proof. rewrite write_tasks_concat. by rewrite map_map. Qed.

Lemma task_fields_task tasks : map fields_task (map task_fields tasks) = tasks.
Proof.
  rewrite map_map. rewrite <- (map_id tasks) at 2.
  apply map_ext. intros t. apply record_task_encode.
Qed.

Lemma task_fields_wf tasks :
  Forall wf_task tasks -> Forall fields_wf (map task_fields tasks).
Proof.
  intros H. apply Forall_map. eapply Forall_impl; [exact H |].
  intros t [Hi Hd]. split; [done |]. split; [apply in_int_flag | done].
Qed.

Lemma parse_tasks_written tasks :
  Forall wf_task tasks -> parse_tasks (write_tasks tasks) = Some tasks.
Proof.
  intros Hwf. rewrite write_tasks_lines, <- (app_nil_r (concat _)).
  rewrite parse_tasks_lines.
  - by rewrite task_fields_task.
  - by apply task_fields_wf.
  - apply (header_fails_eof []). constructor.
Qed.

(** The loader never runs out of steps. *)
Lemma parse_tasks_total content : is_Some (parse_tasks content).
Proof. apply loadTasks_loop_total. simpl. lia. Qed.

(** ** Save and load *)

(** C1.  Round trip.  For every sequence of tasks whose descriptions
    contain no line feed (and whose ids are values of type [int]),
    [saveTasks] on a path that can be opened for writing succeeds, and
    [loadTasks] on the resulting file returns the same sequence: same
    ids, flags and descriptions, in the same order. *)
Theorem save_load_roundtrip (this : FileHandler) (tasks : list Task) (w : World) :
  Forall wf_task tasks ->
  filename this ∉ locked (fs w) ->
  exists w', saveTasks this tasks w = (Ok tt, w')
             /\ loadTasks this w' = (Ok tasks, w').
Proof.
  intros Hwf Hopen. eexists. split.
  - unfold saveTasks. by rewrite decide_False.
  - unfold loadTasks. cbn [fs files]. rewrite lookup_insert_eq.
    by rewrite parse_tasks_written.
Qed.

Lemma save_load_roundtrip_witness :
  exists w', saveTasks checklist_txt [buy_milk; walk_dog] (quiet_world no_files []) = (Ok tt, w')
             /\ loadTasks checklist_txt w' = (Ok [buy_milk; walk_dog], w').
Proof.
  apply save_load_roundtrip.
  - wf_concrete.
  - apply (bool_decide_unpack _). by vm_compute.
Defined.

(** ** Records with any white space *)

Lemma isspace_not_digit c : isspace c = true -> isdigit c = false.
Proof. unfold isdigit, isspace. lia. Qed.

(** One round of the loop on a record. *)
Lemma loadTasks_round_entry fuel e rest i0 c0 d0 acc :
  entry_wf e ->
  loadTasks_loop (S fuel) (open_stream (entry_text e ++ rest)) i0 c0 d0 acc
  = loadTasks_loop fuel (open_stream rest) (entry_id e) (entry_flag e) (entry_desc e)
      (acc ++ [entry_task e]).
Proof.
  destruct e as [ws i g f c d].
  intros (Hws & Hg & Hne & Hi & Hf & Hc & Hd). cbn [lead entry_id gap entry_flag sep entry_desc] in *.
  destruct g as [| g0 g]; [done |].
  pose proof (Forall_inv Hg) as Hg0. cbn beta in Hg0. apply isspace_not_digit in Hg0.
  unfold entry_text, entry_task. cbn [lead entry_id gap entry_flag sep entry_desc].
  replace ((ws ++ put_int i ++ (g0 :: g) ++ put_int f ++ c :: d ++ [nl]) ++ rest)
    with (ws ++ put_int i ++ g0 :: (g ++ put_int f ++ c :: d ++ nl :: rest)).
  2: { repeat rewrite <- app_assoc. cbn [app]. by repeat rewrite <- app_assoc. }
  cbn [loadTasks_loop].
  rewrite extract_int_field by done.
  change (g0 :: g ++ put_int f ++ c :: d ++ nl :: rest)
    with ((g0 :: g) ++ put_int f ++ c :: d ++ nl :: rest).
  rewrite extract_int_field by done.
  cbn [failbit open_stream].
  change {| buf := ?b; eofbit := false; failbit := false |} with (open_stream b).
  by rewrite ignore_cons, getline_line.
Qed.

Lemma loadTasks_loop_entries es fuel rest i0 c0 d0 acc :
  Forall entry_wf es ->
  exists i1 c1 d1,
    loadTasks_loop (length es + fuel)
      (open_stream (concat (map entry_text es) ++ rest)) i0 c0 d0 acc
    = loadTasks_loop fuel (open_stream rest) i1 c1 d1 (acc ++ map entry_task es).
Proof.
  intros Hwf. revert i0 c0 d0 acc.
  induction Hwf as [| e es He _ IH]; intros i0 c0 d0 acc.
  - exists i0, c0, d0. by rewrite app_nil_r.
  - cbn [map concat length Nat.add]. rewrite <- app_assoc.
    rewrite loadTasks_round_entry by done.
    destruct (IH (entry_id e) (entry_flag e) (entry_desc e) (acc ++ [entry_task e]))
      as (i1 & c1 & d1 & ->).
    exists i1, c1, d1. by rewrite <- app_assoc.
Qed.

Lemma entries_length es : (length es <= length (concat (map entry_text es)))%nat.
Proof.
  induction es as [| e es IH]; simpl; [done |].
  rewrite length_app. unfold entry_text at 1. repeat rewrite length_app. simpl. lia.
Qed.

Lemma parse_tasks_entries es rest :
  Forall entry_wf es -> header_fails rest ->
  parse_tasks (concat (map entry_text es) ++ rest) = Some (map entry_task es).
Proof.
  intros Hwf Hrest. unfold parse_tasks.
  destruct (loadTasks_loop_entries es 1 rest 0 0 [] [] Hwf) as (i1 & c1 & d1 & H).
  rewrite loadTasks_loop_stop in H by done.
  eapply loadTasks_loop_fuel; [exact H |].
  rewrite length_app. pose proof (entries_length es). lia.
Qed.

(** ** Malformed input *)

(** C2, as stated, fails.  In a file whose second line is empty, that
    line does not parse as a record, yet [loadTasks] does not stop
    there: [operator>>] skips the line break as white space and the
    record on the third line is loaded too.  In a file whose first line
    holds an id and nothing else, that line does not parse either, yet
    the load goes on and completes a record from the second line. *)
Lemma malformed_line_does_not_stop_load :
  (lines_from [] blank_line_file = [txt "1 0 Buy milk"; []; txt "2 1 Walk dog"]
   /\ parse_line [] = None
   /\ load_by_lines blank_line_file = [buy_milk]
   /\ loadTasks checklist_txt (quiet_world (one_file "checklist.txt" blank_line_file) [])
      = (Ok [buy_milk; walk_dog],
         quiet_world (one_file "checklist.txt" blank_line_file) []))
  /\ (lines_from [] short_line_file = [txt "1"; txt "2 0 x"]
      /\ parse_line (txt "1") = None
      /\ load_by_lines short_line_file = []
      /\ loadTasks checklist_txt (quiet_world (one_file "checklist.txt" short_line_file) [])
         = (Ok [{| id := 1; description := txt "0 x"; completed := true |}],
            quiet_world (one_file "checklist.txt" short_line_file) [])).
Proof. by vm_compute. Qed.

(** C2, amended.  The load does not go line by line: it takes records
    off the stream, a record being white space (line feeds included),
    an integer id, white space (at least one character of it), an
    integer flag, one character that is not a digit and is dropped
    unchecked, and the text up to the next line feed, with the numbers
    in the form [operator<<] writes them and within [int].  When the
    file is a sequence of such records followed by a text at which the
    extraction of two integers fails, the load stops silently at that
    text: it raises no error, changes nothing, returns the task of
    every record before that place, in order, and discards everything
    from that place on. *)
Theorem loadTasks_stops_at_failed_header
    (this : FileHandler) (w : World) (es : list entry) (rest : text) :
  files (fs w) !! filename this = Some (concat (map entry_text es) ++ rest) ->
  Forall entry_wf es ->
  header_fails rest ->
  loadTasks this w = (Ok (map entry_task es), w).
Proof.
  intros Hfile Hwf Hrest. unfold loadTasks.
  by rewrite Hfile, parse_tasks_entries.
Qed.

Lemma loadTasks_stops_at_failed_header_witness :
  loadTasks checklist_txt ragged_world
  = (Ok [{| id := 1; description := txt "0 x"; completed := true |};
         {| id := 3; description := txt "Walk dog"; completed := false |}],
     ragged_world).
Proof.
  apply (loadTasks_stops_at_failed_header checklist_txt ragged_world
           ragged_entries ragged_tail).
  - by vm_compute.
  - repeat (apply Forall_cons; split;
            [split_and!; first [ by vm_compute
                               | unfold in_int, INT_MIN, INT_MAX; simpl; lia
                               | apply (bool_decide_unpack _); by vm_compute ] |]).
    apply List.Forall_nil.
  - by vm_compute.
Defined.

(** ** Construction of the store *)

Lemma wrap_int_id z : in_int z -> wrap_int z = z.
Proof.
  unfold in_int, INT_MIN, INT_MAX, wrap_int. intros Hz.
  rewrite Z.mod_small; lia.
Qed.

Lemma wrap_int_range z : in_int (wrap_int z).
Proof.
  unfold in_int, INT_MIN, INT_MAX, wrap_int.
  pose proof (Z.mod_pos_bound (z + 2147483648) 4294967296). lia.
Qed.

(** C3.  Missing file.  Constructing the store from a path that cannot
    be opened for reading is not an error: the constructor returns, the
    store holds no task and its [nextId] is 1; nothing is printed and
    the file system is left as it was. *)
Theorem ctor_missing_file (fname : string) (w : World) :
  files (fs w) !! fname = None ->
  ChecklistManager_ctor fname w
  = (Ok {| tasks := []; fileHandler := {| filename := fname |}; nextId := 1 |}, w).
Proof.
  intros Hnone. unfold ChecklistManager_ctor, bind, loadTasks. cbn [filename].
  by rewrite Hnone.
Qed.

Lemma ctor_missing_file_witness :
  ChecklistManager_ctor "checklist.txt" (quiet_world no_files [])
  = (Ok {| tasks := []; fileHandler := checklist_txt; nextId := 1 |},
     quiet_world no_files []).
Proof. apply ctor_missing_file. by vm_compute. Defined.

Lemma fold_max_spec (tasks : list Task) (m0 : Z) :
  m0 <= fold_max tasks m0
  /\ (forall task, task ∈ tasks -> getId task <= fold_max tasks m0)
  /\ (fold_max tasks m0 = m0
      \/ exists task, task ∈ tasks /\ getId task = fold_max tasks m0).
Proof.
  revert m0. induction tasks as [| t tasks IH]; intros m0.
  - split; [done |]. split; [| by left]. intros task H. by apply elem_of_nil in H.
  - change (fold_max (t :: tasks) m0) with (fold_max tasks (Z.max m0 (getId t))).
    destruct (IH (Z.max m0 (getId t))) as (Hle & Hall & Hor).
    split; [lia |]. split.
    + intros task [-> | H]%elem_of_cons; [lia | by apply Hall].
    + destruct Hor as [Heq | (task & Hin & Heq)].
      * destruct (Z.max_spec m0 (getId t)) as [[_ E] | [_ E]].
        -- right. exists t. split; [apply elem_of_cons; by left | congruence].
        -- left. congruence.
      * right. exists task. split; [apply elem_of_cons; by right | done].
Qed.

Lemma getNextId_max (this : ChecklistManager) (M : Z) :
  is_max_id M (tasks this) -> getNextId this = wrap_int (Z.max 0 M + 1).
Proof.
  intros [(tM & HinM & HM) Hall]. unfold getNextId.
  change (fold_left _ (tasks this) 0) with (fold_max (tasks this) 0).
  destruct (fold_max_spec (tasks this) 0) as (H0 & Hle & Hor).
  cbn zeta. f_equal. f_equal.
  specialize (Hle tM HinM). rewrite HM in Hle.
  destruct Hor as [E | (t & Hin & E)]; [lia |].
  specialize (Hall t Hin). lia.
Qed.

Lemma extract_int_in_int s old :
  failbit (extract_int s old).1 = false -> in_int (extract_int s old).2.
Proof.
  unfold extract_int. pose proof (sentry_failed false s) as Hfail.
  destruct (sentry false s) as [s1 []]; cbn [negb fst snd] in *;
    [| intros H; by rewrite Hfail in H].
  destruct (scan_sign (buf s1)) as [neg b1].
  destruct (scan_digits b1 0 0%nat) as [[n cnt] b2].
  destruct (cnt =? 0)%nat; [done |].
  destruct (Z.ltb_spec (if neg then - n else n) INT_MIN); [done |].
  destruct (Z.ltb_spec INT_MAX (if neg then - n else n)); [done |].
  intros _. cbn [snd]. unfold in_int. lia.
Qed.

(** Every id the loader returns is a value of type [int]. *)
Lemma loadTasks_loop_ids fuel file i c d acc r :
  Forall (fun task => in_int (getId task)) acc ->
  loadTasks_loop fuel file i c d acc = Some r ->
  Forall (fun task => in_int (getId task)) r.
Proof.
  revert file i c d acc.
  induction fuel as [| fuel IH]; intros file i c d acc Hacc H; [done |].
  cbn [loadTasks_loop] in H.
  pose proof (extract_int_in_int file i) as Hi.
  pose proof (extract_int_failed (extract_int file i).1 c) as Hf.
  destruct (extract_int file i) as [file1 i1]. cbn [fst snd] in *.
  destruct (extract_int file1 c) as [file2 c1]. cbn [fst] in *.
  destruct (failbit file2) eqn:E2; [by injection H as <- |].
  destruct (getline (ignore file2) d) as [file4 d1].
  eapply IH; [| exact H].
  apply Forall_app. split; [done |]. apply Forall_cons. split; [| done].
  destruct (failbit file1); [by specialize (Hf eq_refl) |].
  destruct (c1 =? 0); by apply Hi.
Qed.

(** The constructor always returns; it prints nothing and leaves the
    world as it was. *)
Lemma ctor_result (fname : string) (w : World) :
  exists loaded,
    ChecklistManager_ctor fname w
    = (Ok {| tasks := loaded; fileHandler := {| filename := fname |};
             nextId := getNextId {| tasks := loaded;
                                    fileHandler := {| filename := fname |};
                                    nextId := 1 |} |}, w)
    /\ Forall (fun task => in_int (getId task)) loaded
    /\ (files (fs w) !! fname = None -> loaded = [])
    /\ (forall content, files (fs w) !! fname = Some content ->
          parse_tasks content = Some loaded).
Proof.
  unfold ChecklistManager_ctor, bind, loadTasks, ret. cbn [filename].
  destruct (files (fs w) !! fname) as [content |] eqn:Hfile.
  - destruct (parse_tasks_total content) as [loaded Hloaded].
    exists loaded. rewrite Hloaded. split; [done |]. split; [| split].
    + eapply loadTasks_loop_ids; [| exact Hloaded]. constructor.
    + done.
    + intros ? [= <-]. done.
  - exists []. split; [done |]. split; [constructor | done].
Qed.

(** C4, as stated, fails.  A file may hold negative ids; the search
    for the greatest id starts from 0, so a sequence whose ids are all
    negative gives [nextId] 1, not one more than its greatest id. *)
Lemma nextId_with_negative_ids :
  ChecklistManager_ctor "checklist.txt"
    (quiet_world (one_file "checklist.txt" negative_id_file) [])
  = (Ok {| tasks := [{| id := -5; description := txt "Pay rent"; completed := false |}];
           fileHandler := checklist_txt;
           nextId := 1 |},
     quiet_world (one_file "checklist.txt" negative_id_file) [])
  /\ is_max_id (-5) [{| id := -5; description := txt "Pay rent"; completed := false |}]
  /\ 1 <> -5 + 1.
Proof.
  split; [by vm_compute |]. split; [| done]. split.
  - eexists. split; [apply list_elem_of_singleton; reflexivity | reflexivity].
  - by intros task ->%list_elem_of_singleton.
Qed.

(** C4, amended.  Construction always succeeds, and the store's
    [nextId] is then 1 when no task was loaded, one more than the
    greatest loaded id [M] when [0 <= M < INT_MAX], and 1 when every
    loaded id is negative. *)
Theorem ctor_nextId (fname : string) (w : World) :
  exists this,
    ChecklistManager_ctor fname w = (Ok this, w)
    /\ (tasks this = [] -> nextId this = 1)
    /\ (forall M, is_max_id M (tasks this) -> 0 <= M < INT_MAX -> nextId this = M + 1)
    /\ (forall M, is_max_id M (tasks this) -> M < 0 -> nextId this = 1).
Proof.
  destruct (ctor_result fname w) as (loaded & Hctor & _).
  eexists. split; [exact Hctor |]. cbn [tasks nextId].
  split; [by intros -> |]. split.
  - intros M HM HMr. rewrite (getNextId_max _ M) by done.
    rewrite wrap_int_id; unfold in_int, INT_MIN, INT_MAX in *; lia.
  - intros M HM Hneg. rewrite (getNextId_max _ M) by done.
    by replace (Z.max 0 M) with 0 by lia.
Qed.

Lemma ctor_nextId_witness :
  exists this,
    ChecklistManager_ctor "checklist.txt"
      (quiet_world (one_file "checklist.txt" three_ids_file) [])
    = (Ok this, quiet_world (one_file "checklist.txt" three_ids_file) [])
    /\ nextId this = 8.
Proof.
  destruct (ctor_nextId "checklist.txt"
              (quiet_world (one_file "checklist.txt" three_ids_file) []))
    as (this & Hctor & _ & Hmax & _).
  exists this. split; [exact Hctor |].
  vm_compute in Hctor. injection Hctor as <-.
  apply (Hmax 7); [| unfold INT_MAX; lia].
  split.
  - exists {| id := 7; description := txt "Walk dog"; completed := true |}.
    split; [| reflexivity]. apply list_elem_of_lookup. by exists 1%nat.
  - intros task Hin. cbn [tasks] in Hin.
    repeat (apply elem_of_cons in Hin as [-> | Hin]; [by vm_compute |]).
    by apply elem_of_nil in Hin.
Defined.

(** The example of the specification: ids 3, 7, 1 on file, then one
    task added, which gets id 8. *)
Example add_after_load_gets_8 :
  (do this <- ChecklistManager_ctor "checklist.txt";
   do this <- addTask (txt "Call home") this;
   ret (map getId (tasks this), nextId this))
    (quiet_world (one_file "checklist.txt" three_ids_file) [])
  = (Ok ([3; 7; 1; 8], 9),
     {| fs := one_file "checklist.txt" three_ids_file; cin := open_stream [];
        cout := line "Task added successfully!"; cerr := [] |}).
Proof. by vm_compute. Qed.

(** ** Operations of the store *)

Lemma wrap_int_add a b : wrap_int (wrap_int a + b) = wrap_int (a + b).
Proof.
  unfold wrap_int.
  replace ((a + 2147483648) mod 4294967296 - 2147483648 + b + 2147483648)
    with ((a + 2147483648) mod 4294967296 + b) by lia.
  replace (a + b + 2147483648) with (a + 2147483648 + b) by lia.
  by rewrite Zplus_mod_idemp_l.
Qed.

Lemma print_said s w : print s w = (Ok tt, said s w).
Proof. reflexivity. Qed.

Lemma addTask_result description this w :
  addTask description this w
  = (Ok {| tasks := tasks this ++ [newTask (nextId this) description];
           fileHandler := fileHandler this;
           nextId := wrap_int (nextId this + 1) |},
     said (line "Task added successfully!") w).
Proof. reflexivity. Qed.

Lemma said_added_succ n w :
  said_added n (said (line "Task added successfully!") w) = said_added (S n) w.
Proof.
  unfold said_added. symmetry. apply Nat.iter_succ_r.
Qed.

(** What a run of [addTask] leaves, counter overflow included. *)
Lemma addTasks_result descriptions this w :
  in_int (nextId this) ->
  addTasks descriptions this w
  = (Ok {| tasks := tasks this
                    ++ imap (fun k d => newTask (wrap_int (nextId this + Z.of_nat k)) d)
                         descriptions;
           fileHandler := fileHandler this;
           nextId := wrap_int (nextId this + Z.of_nat (length descriptions)) |},
     said_added (length descriptions) w).
Proof.
  revert this w. induction descriptions as [| d ds IH]; intros this w Hn.
  - cbn [addTasks imap length ret said_added Nat.iter].
    rewrite Z.add_0_r, wrap_int_id, app_nil_r by done. by destruct this.
  - cbn [addTasks]. unfold bind at 1. rewrite addTask_result.
    rewrite IH by apply wrap_int_range.
    cbn [tasks fileHandler nextId length]. rewrite said_added_succ.
    rewrite <- app_assoc. cbn [imap app].
    change (Z.of_nat 0) with 0. rewrite Z.add_0_r, (wrap_int_id (nextId this)) by done.
    rewrite (imap_ext _ ((fun k d => newTask (wrap_int (nextId this + Z.of_nat k)) d) ∘ S)).
    + rewrite wrap_int_add.
      by replace (nextId this + 1 + Z.of_nat (length ds))
        with (nextId this + Z.of_nat (S (length ds))) by lia.
    + intros k x _. cbn [compose]. rewrite wrap_int_add. do 2 f_equal. lia.
Qed.

(** The id of the task added by call number 2^31. *)
Lemma addTasks_last_id (n k : nat) (w : World) :
  Z.of_nat n = 2147483648 -> Z.of_nat k = 2147483647 ->
  exists this' w',
    addTasks (replicate n []) fresh_store w = (Ok this', w')
    /\ map getId (tasks this') !! k = Some (-2147483648).
Proof.
  intros Hn Hk.
  eexists _, _. split; [apply addTasks_result; by vm_compute |].
  cbn [tasks fresh_store nextId app].
  rewrite list_lookup_fmap, list_lookup_imap, lookup_replicate_2 by lia.
  cbn [fmap option_fmap option_map getId id newTask]. rewrite Hk. done.
Qed.

(** C5, as stated, fails for large [N].  The counter is an [int]: the
    task added by call number 2^31 cannot have the id 2^31, and where
    the increment wraps around it gets the id -2^31. *)
Lemma addTask_counter_overflows :
  exists this' w',
    addTasks (replicate (Z.to_nat 2147483648) []) fresh_store (quiet_world no_files [])
    = (Ok this', w')
    /\ map getId (tasks this') !! Z.to_nat 2147483647 = Some (-2147483648)
    /\ -2147483648 <> 2147483648.
Proof.
  destruct (addTasks_last_id (Z.to_nat 2147483648) (Z.to_nat 2147483647)
              (quiet_world no_files [])) as (this' & w' & Hrun & Hid);
    [apply Z2Nat.id; lia .. |].
  exists this', w'. by split_and!.
Qed.

(** C5, amended.  For every [N] up to [INT_MAX], [N] calls of
    [addTask] in a row on a store that starts empty (no task,
    [nextId = 1]) all succeed and append [N] tasks with the ids 1 to
    [N] in call order, each with its own description and not
    completed. *)
Theorem addTasks_ids (descriptions : list text) (this : ChecklistManager) (w : World) :
  tasks this = [] -> nextId this = 1 ->
  Z.of_nat (length descriptions) <= INT_MAX ->
  exists this',
    addTasks descriptions this w = (Ok this', said_added (length descriptions) w)
    /\ tasks this'
       = imap (fun k d => {| id := Z.of_nat k + 1; description := d; completed := false |})
           descriptions.
Proof.
  intros Hempty Hnext Hlen. eexists. split.
  - apply addTasks_result. rewrite Hnext. by vm_compute.
  - cbn [tasks]. rewrite Hempty, Hnext. cbn [app].
    apply imap_ext. intros k d Hk. unfold newTask. f_equal.
    apply lookup_lt_Some in Hk.
    rewrite wrap_int_id; unfold in_int, INT_MIN, INT_MAX in *; lia.
Qed.

Lemma addTasks_ids_witness :
  exists this',
    addTasks [txt "Buy milk"; txt "Walk dog"; txt "Pay rent"] fresh_store
      (quiet_world no_files [])
    = (Ok this', said_added 3 (quiet_world no_files []))
    /\ tasks this'
       = [ {| id := 1; description := txt "Buy milk"; completed := false |};
           {| id := 2; description := txt "Walk dog"; completed := false |};
           {| id := 3; description := txt "Pay rent"; completed := false |} ].
Proof.
  apply (addTasks_ids [txt "Buy milk"; txt "Walk dog"; txt "Pay rent"]);
    [reflexivity | reflexivity | by vm_compute].
Defined.

(** ** Removing and toggling *)

Lemma filter_all {A} (P : A -> Prop) `{!forall x, Decision (P x)} (l : list A) :
  Forall P l -> filter P l = l.
Proof.
  induction 1 as [| x l Hx _ IH]; [done |].
  by rewrite filter_cons_True, IH.
Qed.

Lemma absent_id (id : Z) (tasks : list Task) :
  id ∉ map getId tasks <-> Forall (fun task => getId task <> id) tasks.
Proof.
  rewrite Forall_forall. split.
  - intros Hnot task Hin Heq. apply Hnot. rewrite <- Heq.
    by apply list_elem_of_fmap_2.
  - intros Hall (task & -> & Hin)%list_elem_of_fmap. by apply (Hall task).
Qed.

Lemma removeTask_absent id this w :
  id ∉ map getId (tasks this) ->
  removeTask id this w = (Ok this, said (line "Task not found!") w).
Proof.
  intros Habs%absent_id. unfold removeTask.
  rewrite filter_all by done. by rewrite decide_False by (intros H; by apply H).
Qed.

Lemma toggleTask_absent id this w :
  id ∉ map getId (tasks this) ->
  toggleTask id this w = (Ok this, said (line "Task not found!") w).
Proof.
  intros Habs%absent_id. unfold toggleTask.
  assert (list_find (fun task => getId task = id) (tasks this) = None) as ->; [| done].
  apply list_find_None. eapply Forall_impl; [exact Habs |]. done.
Qed.

(** C6.  Not found.  For every store and every id that no task of the
    sequence has, [removeTask] and [toggleTask] return normally with
    the store unchanged (the task sequence in particular), having
    written the message [Task not found!] and nothing else. *)
Theorem not_found_leaves_store (id : Z) (this : ChecklistManager) (w : World) :
  id ∉ map getId (tasks this) ->
  removeTask id this w = (Ok this, said (line "Task not found!") w)
  /\ toggleTask id this w = (Ok this, said (line "Task not found!") w).
Proof.
  intros Habs. split; [by apply removeTask_absent | by apply toggleTask_absent].
Qed.

Lemma not_found_leaves_store_witness :
  removeTask 9 two_tasks (quiet_world no_files [])
  = (Ok two_tasks, said (line "Task not found!") (quiet_world no_files []))
  /\ toggleTask 9 two_tasks (quiet_world no_files [])
     = (Ok two_tasks, said (line "Task not found!") (quiet_world no_files [])).
Proof.
  apply not_found_leaves_store. apply (bool_decide_unpack _). by vm_compute.
Defined.

Lemma first_with_id_present id tasks :
  id ∈ map getId tasks -> is_Some (first_with_id id tasks).
Proof.
  intros (task & -> & Hin)%list_elem_of_fmap.
  by apply (list_find_elem_of _ _ task).
Qed.

Lemma toggleTask_found id this w it task :
  first_with_id id (tasks this) = Some (it, task) ->
  toggleTask id this w
  = (Ok {| tasks := alter toggleComplete it (tasks this);
           fileHandler := fileHandler this; nextId := nextId this |},
     said (line "Task status toggled!") w).
Proof. unfold first_with_id, toggleTask. by intros ->. Qed.

Lemma toggleComplete_twice task : toggleComplete (toggleComplete task) = task.
Proof. destruct task as [d c i]. unfold toggleComplete. cbn. by rewrite negb_involutive. Qed.

Lemma first_with_id_toggled id tasks it task :
  first_with_id id tasks = Some (it, task) ->
  first_with_id id (alter toggleComplete it tasks) = Some (it, toggleComplete task).
Proof.
  unfold first_with_id. rewrite !list_find_Some.
  intros (Hit & Hid & Hfirst). split; [| split].
  - by rewrite list_lookup_alter_eq, Hit.
  - done.
  - intros j y Hj Hlt. rewrite list_lookup_alter_ne in Hj by lia. by eapply Hfirst.
Qed.

(** C7.  Toggling twice.  For every store and every id that some task
    has, two calls of [toggleTask] in a row both report success; the
    first flips the flag of the first task with that id, the second
    flips it back, so that the task is in its original completion state
    (and the whole store is as it was). *)
Theorem toggle_twice_restores (id : Z) (this : ChecklistManager) (w : World) :
  id ∈ map getId (tasks this) ->
  exists it task this1,
    first_with_id id (tasks this) = Some (it, task)
    /\ toggleTask id this w = (Ok this1, said (line "Task status toggled!") w)
    /\ isCompleted <$> tasks this1 !! it = Some (negb (isCompleted task))
    /\ toggleTask id this1 (said (line "Task status toggled!") w)
       = (Ok this, said (line "Task status toggled!") (said (line "Task status toggled!") w))
    /\ isCompleted <$> tasks this !! it = Some (isCompleted task).
Proof.
  intros [[it task] Hfind]%first_with_id_present.
  pose proof Hfind as (Hit & _)%list_find_Some.
  eexists it, task, _. split; [done |].
  split; [by apply (toggleTask_found id this w it task) |].
  cbn [tasks]. split; [by rewrite list_lookup_alter_eq, Hit |].
  split; [| by rewrite Hit].
  rewrite (toggleTask_found id _ _ it (toggleComplete task))
    by (by apply first_with_id_toggled).
  cbn [tasks fileHandler nextId].
  rewrite list_alter_alter_eq, list_alter_id by apply toggleComplete_twice.
  by destruct this.
Qed.

Lemma toggle_twice_restores_witness :
  exists it task this1,
    first_with_id 2 (tasks two_tasks) = Some (it, task)
    /\ toggleTask 2 two_tasks (quiet_world no_files [])
       = (Ok this1, said (line "Task status toggled!") (quiet_world no_files []))
    /\ isCompleted <$> tasks this1 !! it = Some (negb (isCompleted task))
    /\ toggleTask 2 this1 (said (line "Task status toggled!") (quiet_world no_files []))
       = (Ok two_tasks,
          said (line "Task status toggled!")
            (said (line "Task status toggled!") (quiet_world no_files [])))
    /\ isCompleted <$> tasks two_tasks !! it = Some (isCompleted task).
Proof.
  apply toggle_twice_restores. apply (bool_decide_unpack _). by vm_compute.
Defined.

Lemma map_alter_same {A B} (f : A -> B) (g : A -> A) (i : nat) (l : list A) :
  (forall x, f (g x) = f x) -> map f (alter g i l) = map f l.
Proof.
  intros Hfg. revert i. induction l as [| x l IH]; intros [| i]; cbn; [done .. | |].
  - by rewrite Hfg.
  - by rewrite IH.
Qed.

(** C10.  Frame of [toggleTask].  For every store and every id that
    some task has, [toggleTask] changes one thing only: the completion
    flag of the first task with that id.  That task keeps its id and
    its description, every other position holds the task it held, the
    sequence keeps its length and its order, and the rest of the store
    (file handler, [nextId]) and the file system are as before. *)
Theorem toggleTask_frame (id : Z) (this : ChecklistManager) (w : World) :
  id ∈ map getId (tasks this) ->
  exists it task this',
    tasks this !! it = Some task /\ getId task = id
    /\ (forall j other, tasks this !! j = Some other -> (j < it)%nat -> getId other <> id)
    /\ toggleTask id this w = (Ok this', said (line "Task status toggled!") w)
    /\ tasks this' !! it
       = Some {| id := getId task; description := getDescription task;
                 completed := negb (isCompleted task) |}
    /\ (forall j, j <> it -> tasks this' !! j = tasks this !! j)
    /\ length (tasks this') = length (tasks this)
    /\ map getId (tasks this') = map getId (tasks this)
    /\ map getDescription (tasks this') = map getDescription (tasks this)
    /\ fileHandler this' = fileHandler this /\ nextId this' = nextId this.
Proof.
  intros [[it task] Hfind]%first_with_id_present.
  pose proof Hfind as (Hit & Hid & Hfirst)%list_find_Some.
  exists it, task,
    {| tasks := alter toggleComplete it (tasks this);
       fileHandler := fileHandler this; nextId := nextId this |}.
  split_and!; try done.
  - by apply (toggleTask_found id this w it task).
  - cbn [tasks]. by rewrite list_lookup_alter_eq, Hit.
  - intros j Hj. cbn [tasks]. by rewrite list_lookup_alter_ne.
  - cbn [tasks]. apply length_alter.
  - cbn [tasks]. by apply map_alter_same.
  - cbn [tasks]. by apply map_alter_same.
Qed.

Lemma toggleTask_frame_witness :
  exists it task this',
    tasks two_tasks !! it = Some task /\ getId task = 2
    /\ (forall j other, tasks two_tasks !! j = Some other -> (j < it)%nat -> getId other <> 2)
    /\ toggleTask 2 two_tasks (quiet_world no_files [])
       = (Ok this', said (line "Task status toggled!") (quiet_world no_files []))
    /\ tasks this' !! it
       = Some {| id := getId task; description := getDescription task;
                 completed := negb (isCompleted task) |}
    /\ (forall j, j <> it -> tasks this' !! j = tasks two_tasks !! j)
    /\ length (tasks this') = length (tasks two_tasks)
    /\ map getId (tasks this') = map getId (tasks two_tasks)
    /\ map getDescription (tasks this') = map getDescription (tasks two_tasks)
    /\ fileHandler this' = fileHandler two_tasks /\ nextId this' = nextId two_tasks.
Proof.
  apply toggleTask_frame. apply (bool_decide_unpack _). by vm_compute.
Defined.

(** ** Failure to save *)

(** C8.  [saveTasks] throws exactly when its file cannot be opened for
    writing; the exception leaves [saveTasks] and cuts short whatever
    its caller would have done next.  In the destructor of the store
    the [try] block catches it: the destructor returns normally after
    writing the message to [std::cerr]. *)
Theorem save_error_raised_and_caught
    (this : FileHandler) (tasks : list Task) (store : ChecklistManager) (w : World) :
  ((exists what, (saveTasks this tasks w).1 = Throw what)
   <-> filename this ∈ locked (fs w))
  /\ (filename this ∈ locked (fs w) ->
      forall (B : Type) (next : unit -> M B),
        bind (saveTasks this tasks) next w = (Throw cannot_write, w))
  /\ (filename (fileHandler store) ∈ locked (fs w) ->
      ChecklistManager_dtor store w
      = (Ok tt, complained (line "Error saving tasks: Unable to open file for writing") w))
  /\ (exists w', ChecklistManager_dtor store w = (Ok tt, w')).
Proof.
  split_and!.
  - unfold saveTasks. destruct (decide (filename this ∈ locked (fs w))) as [Hin | Hout].
    + split; [done | eauto].
    + split; [by intros [what H] | done].
  - intros Hin B next. unfold bind, saveTasks. by rewrite decide_True.
  - intros Hin. unfold ChecklistManager_dtor, try_catch, saveTasks.
    by rewrite decide_True.
  - unfold ChecklistManager_dtor, try_catch, saveTasks.
    destruct (decide _); eauto.
Qed.

Lemma save_error_raised_and_caught_witness :
  saveTasks checklist_txt [buy_milk] (quiet_world locked_disk []) 
  = (Throw cannot_write, quiet_world locked_disk [])
  /\ ChecklistManager_dtor two_tasks (quiet_world locked_disk [])
     = (Ok tt, complained (line "Error saving tasks: Unable to open file for writing")
                 (quiet_world locked_disk [])).
Proof.
  destruct (save_error_raised_and_caught checklist_txt [buy_milk] two_tasks
              (quiet_world locked_disk [])) as (_ & _ & Hdtor & _).
  split; [by vm_compute |].
  apply Hdtor. apply (bool_decide_unpack _). by vm_compute.
Defined.

(** ** Sessions *)

Lemma bind_print {B} s (k : unit -> M B) w : bind (print s) k w = k tt (said s w).
Proof. reflexivity. Qed.

Lemma bind_on_cin {A B} (f : istream -> istream * A) (k : A -> M B) w :
  bind (on_cin f) k w = k (f (cin w)).2 (with_cin (f (cin w)).1 w).
Proof. unfold bind, on_cin. by destruct (f (cin w)). Qed.

Lemma bind_ret {A B} (a : A) (k : A -> M B) w : bind (ret a) k w = k a w.
Proof. reflexivity. Qed.

Lemma filter_same_length {A} (P : A -> Prop) `{!forall x, Decision (P x)} (l : list A) :
  length (filter P l) = length l -> filter P l = l.
Proof.
  induction l as [| x l IH]; [done |].
  rewrite filter_cons. pose proof (length_filter P l).
  case_decide; cbn [length]; intros Hlen; [f_equal; apply IH | ]; lia.
Qed.

Lemma removeTask_effect id m w :
  exists w', removeTask id m w = (Ok (effect m (Remove id)), w') /\ same_outside w w'
             /\ cin w' = cin w.
Proof.
  unfold removeTask. cbn [effect]. case_decide as Hlen.
  - by exists (said (line "Task removed successfully!") w).
  - exists (said (line "Task not found!") w). split; [| done].
    rewrite bind_print. unfold ret. do 2 f_equal.
    rewrite filter_same_length; [by destruct m |].
    destruct (decide (length (filter (fun task => getId task <> id) (tasks m))
                      = length (tasks m))); [done | by destruct Hlen].
Qed.

Lemma toggleTask_effect id m w :
  exists w', toggleTask id m w = (Ok (effect m (Toggle id)), w') /\ same_outside w w'
             /\ cin w' = cin w.
Proof.
  unfold toggleTask. cbn [effect]. unfold first_with_id.
  destruct (list_find _ _) as [[it task] |]; by eexists.
Qed.

Lemma listTasks_effect m w :
  exists w', listTasks m w = (Ok tt, w') /\ same_outside w w' /\ cin w' = cin w.
Proof. unfold listTasks. destruct (tasks m); by eexists. Qed.

Lemma nl_is_space : Forall (fun c => isspace c = true) [nl].
Proof. by repeat constructor. Qed.

(** The start of a round: the menu is shown, the choice is read and
    the character after it is dropped. *)
Lemma run_loop_choice ind fuel choice input this w ws z tail :
  Forall (fun c => isspace c = true) ws -> in_int z ->
  cin w = open_stream (ws ++ put_int z ++ nl :: tail) ->
  exists w1,
    same_outside w w1 /\ cin w1 = open_stream tail
    /\ run_loop ind (S fuel) choice input this w
       = (if z =? 1 then
            do _ <- print (txt "Enter task description: ");
            do input <- on_cin (fun s => getline s input);
            do m <- addTask input (manager this);
            run_loop ind fuel z input {| manager := m |}
          else if z =? 2 then
            do _ <- print (txt "Enter task ID to remove: ");
            do id <- on_cin (fun s => extract_int s ind);
            do m <- removeTask id (manager this);
            run_loop ind fuel z input {| manager := m |}
          else if z =? 3 then
            do _ <- print (txt "Enter task ID to toggle: ");
            do id <- on_cin (fun s => extract_int s ind);
            do m <- toggleTask id (manager this);
            run_loop ind fuel z input {| manager := m |}
          else if z =? 4 then
            do _ <- listTasks (manager this);
            run_loop ind fuel z input this
          else if z =? 5 then
            do _ <- print (line "Saving and exiting...");
            ret this
          else
            do _ <- print (line "Invalid choice!");
            run_loop ind fuel z input this) w1.
Proof.
  intros Hws Hz Hcin. eexists. split_and!; [| | cbn [run_loop]; unfold displayMenu;
    rewrite bind_print, bind_on_cin; cbn [cin said]; rewrite Hcin;
    rewrite extract_int_field by done; cbn [fst snd];
    rewrite bind_on_cin; cbn [cin with_cin fst snd]; rewrite ignore_cons;
    reflexivity]; done.
Qed.

Lemma same_outside_trans w1 w2 w3 :
  same_outside w1 w2 -> same_outside w2 w3 -> same_outside w1 w3.
Proof. intros [H1 H2] [H3 H4]. split; congruence. Qed.

Lemma extract_int_number z c rest old :
  in_int z -> isdigit c = false ->
  extract_int (open_stream (put_int z ++ c :: rest)) old = (open_stream (c :: rest), z).
Proof. intros Hz Hc. by apply (extract_int_field []); [constructor | |]. Qed.

(** A round of the menu that carries out a command. *)
Lemma run_loop_round ind fuel choice input this w ws c tail :
  Forall (fun c => isspace c = true) ws -> wf_command c ->
  cin w = open_stream (ws ++ typed c ++ tail) ->
  exists choice' input' w' ws',
    run_loop ind (S fuel) choice input this w
    = run_loop ind fuel choice' input' {| manager := effect (manager this) c |} w'
    /\ same_outside w w' /\ Forall (fun c => isspace c = true) ws'
    /\ cin w' = open_stream (ws' ++ tail).
Proof.
  intros Hws Hwf Hcin. destruct c as [d | i | i | | z]; cbn [typed wf_command] in *.
  - destruct (run_loop_choice ind fuel choice input this w ws 1 (d ++ nl :: tail))
      as (w1 & Hout & Hcin1 & ->); [done | by vm_compute | |].
    { rewrite Hcin. by rewrite <- !app_assoc. }
    cbn [Z.eqb Pos.eqb]. rewrite bind_print, bind_on_cin. cbn [cin said].
    rewrite Hcin1, getline_line by done. cbn [fst snd].
    unfold bind at 1. rewrite addTask_result.
    eexists 1, d, _, []. split; [reflexivity |]. by split_and!.
  - destruct (run_loop_choice ind fuel choice input this w ws 2 (put_int i ++ nl :: tail))
      as (w1 & Hout & Hcin1 & ->); [done | by vm_compute | |].
    { rewrite Hcin. by rewrite <- !app_assoc. }
    cbn [Z.eqb Pos.eqb]. rewrite bind_print, bind_on_cin. cbn [cin said].
    rewrite Hcin1. rewrite extract_int_number by done.
    cbn [fst snd]. unfold bind at 1.
    destruct (removeTask_effect i (manager this)
                (with_cin (open_stream (nl :: tail)) (said (txt "Enter task ID to remove: ") w1)))
      as (w2 & -> & Hout2 & Hcin2).
    eexists 2, input, w2, [nl]. split; [reflexivity |]. split_and!.
    + eapply same_outside_trans; [exact Hout |]. destruct Hout2. by split.
    + apply nl_is_space.
    + by rewrite Hcin2.
  - destruct (run_loop_choice ind fuel choice input this w ws 3 (put_int i ++ nl :: tail))
      as (w1 & Hout & Hcin1 & ->); [done | by vm_compute | |].
    { rewrite Hcin. by rewrite <- !app_assoc. }
    cbn [Z.eqb Pos.eqb]. rewrite bind_print, bind_on_cin. cbn [cin said].
    rewrite Hcin1. rewrite extract_int_number by done.
    cbn [fst snd]. unfold bind at 1.
    destruct (toggleTask_effect i (manager this)
                (with_cin (open_stream (nl :: tail)) (said (txt "Enter task ID to toggle: ") w1)))
      as (w2 & -> & Hout2 & Hcin2).
    eexists 3, input, w2, [nl]. split; [reflexivity |]. split_and!.
    + eapply same_outside_trans; [exact Hout |]. destruct Hout2. by split.
    + apply nl_is_space.
    + by rewrite Hcin2.
  - destruct (run_loop_choice ind fuel choice input this w ws 4 tail)
      as (w1 & Hout & Hcin1 & ->); [done | by vm_compute | |].
    { by rewrite Hcin. }
    cbn [Z.eqb Pos.eqb]. unfold bind at 1.
    destruct (listTasks_effect (manager this) w1) as (w2 & -> & Hout2 & Hcin2).
    eexists 4, input, w2, []. split; [by destruct this |]. split_and!.
    + by eapply same_outside_trans.
    + constructor.
    + by rewrite Hcin2.
  - destruct Hwf as [Hz Hnot].
    destruct (run_loop_choice ind fuel choice input this w ws z tail)
      as (w1 & Hout & Hcin1 & ->); [done | done | |].
    { rewrite Hcin. by rewrite <- !app_assoc. }
    rewrite !(proj2 (Z.eqb_neq _ _)) by lia. rewrite bind_print.
    eexists z, input, _, []. split; [by destruct this |]. split_and!.
    + destruct Hout. by split.
    + constructor.
    + done.
Qed.

Lemma effect_fileHandler m c : fileHandler (effect m c) = fileHandler m.
Proof.
  destruct c; cbn [effect]; try done.
  by destruct (first_with_id id0 (tasks m)) as [[it task] |].
Qed.

Lemma session_fileHandler cmds m : fileHandler (foldl effect m cmds) = fileHandler m.
Proof.
  revert m. induction cmds as [| c cmds IH]; intros m; [done |].
  cbn [foldl]. by rewrite IH, effect_fileHandler.
Qed.

(** The menu loop carries out the commands of a session one per round
    and returns when it reads the 5. *)
Lemma run_loop_session ind cmds fuel choice input this w ws rest :
  Forall (fun c => isspace c = true) ws -> Forall wf_command cmds ->
  cin w = open_stream (ws ++ script cmds ++ rest) ->
  (length cmds < fuel)%nat ->
  exists w',
    run_loop ind fuel choice input this w
    = (Ok {| manager := foldl effect (manager this) cmds |}, w')
    /\ same_outside w w'.
Proof.
  intros Hws Hwf. revert fuel choice input this w ws Hws.
  induction Hwf as [| c cmds Hc _ IH]; intros fuel choice input this w ws Hws Hcin Hfuel;
    (destruct fuel as [| fuel]; [lia |]).
  - destruct (run_loop_choice ind fuel choice input this w ws 5 rest)
      as (w1 & Hout & Hcin1 & ->); [done | by vm_compute | by rewrite Hcin |].
    cbn [Z.eqb Pos.eqb]. rewrite bind_print. eexists. split; [by destruct this |].
    destruct Hout. by split.
  - unfold script in Hcin. cbn [map concat] in Hcin.
    destruct (run_loop_round ind fuel choice input this w ws c
                (script cmds ++ rest) Hws Hc)
      as (choice' & input' & w1 & ws' & -> & Hout & Hws' & Hcin1).
    { rewrite Hcin. unfold script. by rewrite <- !app_assoc. }
    destruct (IH fuel choice' input' {| manager := effect (manager this) c |} w1 ws' Hws' Hcin1)
      as (w2 & -> & Hout2); [cbn [length] in Hfuel; lia |].
    exists w2. split; [done |]. by eapply same_outside_trans.
Qed.

(** A whole run of the program on a session. *)
Lemma main_session ind cmds rest fuel w :
  Forall wf_command cmds ->
  cin w = open_stream (script cmds ++ rest) ->
  (length cmds < fuel)%nat ->
  exists store w',
    ChecklistManager_ctor "checklist.txt" w = (Ok store, w)
    /\ main ind fuel w = (Ok 0, w')
    /\ ("checklist.txt" ∈ locked (fs w) ->
        fs w' = fs w
        /\ cerr w' = cerr w ++ line "Error saving tasks: Unable to open file for writing")
    /\ ("checklist.txt" ∉ locked (fs w) ->
        files (fs w')
        = <["checklist.txt" := write_tasks (tasks (foldl effect store cmds))]> (files (fs w))
        /\ cerr w' = cerr w).
Proof.
  intros Hwf Hcin Hfuel.
  destruct (ctor_result "checklist.txt" w) as (loaded & Hctor & _).
  eexists _. unfold main, try_catch, Menu_ctor, Menu_dtor, run.
  unfold bind at 1 2. rewrite Hctor. cbn [ret].
  set (menu := {| manager := _ |}). unfold bind at 1.
  destruct (run_loop_session ind cmds fuel ind [] menu w [] rest) as (w1 & -> & Hfs & Herr);
    [constructor | done | done | done |].
  unfold bind, ChecklistManager_dtor, try_catch, saveTasks, ret.
  cbn [manager]. rewrite session_fileHandler. subst menu. cbn [manager fileHandler filename].
  rewrite Hfs. destruct (decide ("checklist.txt" ∈ locked (fs w))) as [Hin | Hout].
  - eexists. split; [reflexivity |]. split; [reflexivity |]. split; [| done].
    intros _. cbn [fs cerr]. by rewrite ?Hfs, ?Herr.
  - eexists. split; [reflexivity |]. split; [reflexivity |]. split; [done |].
    intros _. cbn [fs files cerr]. by rewrite ?Hfs, ?Herr.
Qed.

(** ** A menu that never returns *)

Lemma extract_int_eof s old :
  buf s = [] -> (extract_int s old).2 = old /\ buf (extract_int s old).1 = [].
Proof.
  intros Hbuf. unfold extract_int, sentry. rewrite Hbuf.
  by destruct (negb (good s)).
Qed.

Lemma ignore_eof s : buf s = [] -> buf (ignore s) = [].
Proof.
  intros Hbuf. unfold ignore, sentry.
  destruct (negb (good s)); cbn [negb fst]; by rewrite ?Hbuf.
Qed.

(** At the end of the input every extraction fails and leaves [choice]
    as it was; unless that is one of the five choices, the loop goes
    round for ever with the message of the default case. *)
Lemma run_loop_spins ind fuel choice input this w :
  buf (cin w) = [] -> ~ (1 <= choice <= 5) ->
  (run_loop ind fuel choice input this w).1 = OutOfFuel.
Proof.
  intros Hbuf Hchoice. revert w Hbuf.
  induction fuel as [| fuel IH]; intros w Hbuf; [done |].
  cbn [run_loop]. unfold displayMenu.
  rewrite bind_print, bind_on_cin. cbn [cin said].
  destruct (extract_int_eof (cin w) choice Hbuf) as [-> Hbuf1].
  rewrite bind_on_cin. cbn [cin with_cin fst snd].
  rewrite !(proj2 (Z.eqb_neq _ _)) by lia. rewrite bind_print.
  apply IH. cbn [cin said with_cin]. by apply ignore_eof.
Qed.

Lemma main_spins ind fuel w :
  buf (cin w) = [] -> ~ (1 <= ind <= 5) ->
  (main ind fuel w).1 = OutOfFuel.
Proof.
  intros Hbuf Hind. unfold main, try_catch, Menu_ctor, run.
  unfold bind at 1 2.
  destruct (ctor_result "checklist.txt" w) as (loaded & -> & _). cbn [ret].
  set (menu := {| manager := _ |}). unfold bind at 1.
  pose proof (run_loop_spins ind fuel ind [] menu w Hbuf Hind) as Hspin.
  by destruct (run_loop ind fuel ind [] menu w) as [[] ?]; cbn [fst] in Hspin.
Qed.

(** ** The exit code *)

(** C9, as stated, fails.  With a file that cannot be opened for
    writing, the user choosing 5 at the first prompt makes the process
    leave with exit code 0, not 1: the store's destructor catches the
    error of the shutdown save and reports it on [std::cerr]. *)
Lemma unwritable_file_exits_with_0 :
  exists w',
    main 0 1 (quiet_world locked_disk (lf "5|")) = (Ok 0, w')
    /\ "checklist.txt" ∈ locked (fs (quiet_world locked_disk (lf "5|")))
    /\ cerr w' = line "Error saving tasks: Unable to open file for writing"
    /\ (0 : Z) <> 1.
Proof.
  eexists. split; [by vm_compute |]. cbn [cerr].
  split; [apply (bool_decide_unpack _); by vm_compute | done].
Qed.

(** C9, amended.  The exit code is 0 on normal exit, that is, when the
    user ends a session of well-formed commands with the choice 5, and
    it is 0 also when the file cannot be opened for writing at
    shutdown: the failure of the shutdown save is caught by the
    destructor of the store and reported on [std::cerr], the file
    system is left as it was, and the error does not reach the handler
    of [main], which alone returns 1.  When the file can be written,
    nothing is reported on [std::cerr]. *)
Theorem main_exit_code
    (indeterminate : Z) (fuel : nat) (w : World) (cmds : list command) (rest : text) :
  Forall wf_command cmds ->
  cin w = open_stream (script cmds ++ rest) ->
  (length cmds < fuel)%nat ->
  exists w',
    main indeterminate fuel w = (Ok 0, w')
    /\ ("checklist.txt" ∈ locked (fs w) ->
        fs w' = fs w
        /\ cerr w' = cerr w ++ line "Error saving tasks: Unable to open file for writing")
    /\ ("checklist.txt" ∉ locked (fs w) -> cerr w' = cerr w).
Proof.
  intros Hwf Hcin Hfuel.
  destruct (main_session indeterminate cmds rest fuel w Hwf Hcin Hfuel)
    as (store & w' & _ & Hmain & Hlocked & Hopen).
  exists w'. split; [done |]. split; [done |].
  intros Hout. by destruct (Hopen Hout).
Qed.

Lemma main_exit_code_witness :
  exists w',
    main 7 3 (quiet_world locked_disk (script [Add (txt "Buy milk"); Toggle 1])) = (Ok 0, w')
    /\ ("checklist.txt"
          ∈ locked (fs (quiet_world locked_disk (script [Add (txt "Buy milk"); Toggle 1]))) ->
        fs w' = fs (quiet_world locked_disk (script [Add (txt "Buy milk"); Toggle 1]))
        /\ cerr w'
           = cerr (quiet_world locked_disk (script [Add (txt "Buy milk"); Toggle 1]))
             ++ line "Error saving tasks: Unable to open file for writing")
    /\ ("checklist.txt"
          ∉ locked (fs (quiet_world locked_disk (script [Add (txt "Buy milk"); Toggle 1]))) ->
        cerr w' = cerr (quiet_world locked_disk (script [Add (txt "Buy milk"); Toggle 1]))).
Proof.
  apply (main_exit_code 7 3
           (quiet_world locked_disk (script [Add (txt "Buy milk"); Toggle 1]))
           [Add (txt "Buy milk"); Toggle 1] []).
  - apply Forall_cons; split; [apply (bool_decide_unpack _); by vm_compute |].
    apply Forall_cons; split; [by vm_compute | apply List.Forall_nil].
  - cbn [cin quiet_world]. by rewrite app_nil_r.
  - simpl. lia.
Defined.

(** The session of the specification ends with exit code 0 and the
    file holding the one task left, completed. *)
Example example_session_result :
  (main 0 3 example_session).1 = Ok 0
  /\ files (fs (main 0 3 example_session).2) !! "checklist.txt" = Some (lf "1 1 Buy milk|")
  /\ cerr (main 0 3 example_session).2 = [].
Proof. by vm_compute. Qed.

(** * Further properties *)

(** ** The loader, piece by piece *)

Lemma loadTasks_loop_acc fuel file i c d acc :
  loadTasks_loop fuel file i c d acc
  = (fun r => acc ++ r) <$> loadTasks_loop fuel file i c d [].
Proof.
  revert file i c d acc. induction fuel as [| fuel IH]; intros file i c d acc; [done |].
  cbn [loadTasks_loop].
  destruct (extract_int file i) as [file1 i1].
  destruct (extract_int file1 c) as [file2 c1].
  destruct (failbit file2); [cbn; by rewrite app_nil_r |].
  destruct (getline (ignore file2) d) as [file4 d1].
  rewrite IH. rewrite (IH _ _ _ _ ([] ++ _)).
  destruct (loadTasks_loop fuel file4 i1 c1 d1 []) as [r |]; cbn; [| done].
  by rewrite <- app_assoc.
Qed.

(** With enough fuel the loop returns what it had plus [load_from]. *)
Lemma loadTasks_loop_load_from fuel file i c d acc :
  (length (buf file) < fuel)%nat ->
  loadTasks_loop fuel file i c d acc = Some (acc ++ load_from file d).
Proof.
  intros Hfuel. unfold load_from.
  destruct (loadTasks_loop_total (S (length (buf file))) file 0 0 d []) as [r Hr]; [lia |].
  rewrite Hr. cbn [default].
  rewrite loadTasks_loop_acc, (loadTasks_loop_locals _ _ i c 0 0).
  by rewrite (loadTasks_loop_fuel _ fuel _ _ _ _ _ _ Hr) by lia.
Qed.

Lemma parse_tasks_load_from content :
  parse_tasks content = Some (load_from (open_stream content) []).
Proof. unfold parse_tasks. by rewrite loadTasks_loop_load_from by (simpl; lia). Qed.

(** One well-formed line, then the rest. *)
Lemma load_from_line i f d rest d0 :
  in_int i -> in_int f -> nl ∉ d ->
  load_from (open_stream (record_line i f d ++ rest)) d0
  = record_task i f d :: load_from (open_stream rest) d.
Proof.
  intros Hi Hf Hd.
  pose proof (loadTasks_loop_load_from (S (S (length (record_line i f d ++ rest))))
                (open_stream (record_line i f d ++ rest)) 0 0 d0 []) as H.
  rewrite loadTasks_round in H by done.
  rewrite loadTasks_loop_load_from in H
    by (cbn [buf open_stream]; rewrite length_app; lia).
  cbn [app] in H. symmetry. apply (inj Some). rewrite <- H; [done |].
  cbn [buf open_stream]. lia.
Qed.

Lemma last_description_cons d0 r rs :
  last_description d0 (r :: rs) = last_description r.2 rs.
Proof.
  unfold last_description. destruct rs as [| r' rs]; [done |].
  rewrite last_cons_cons.
  destruct (last (r' :: rs)) as [r0 |] eqn:E; [done |].
  by apply last_None in E.
Qed.

(** Well-formed lines, then the rest. *)
Lemma load_from_lines rs rest d0 :
  Forall fields_wf rs ->
  load_from (open_stream (concat (map fields_line rs) ++ rest)) d0
  = map fields_task rs ++ load_from (open_stream rest) (last_description d0 rs).
Proof.
  intros Hwf. revert d0.
  induction Hwf as [| [[i f] d] rs (Hi & Hf & Hd) _ IH]; intros d0; [done |].
  cbn [map concat]. rewrite <- app_assoc. unfold fields_line at 1. cbn [fst snd] in *.
  rewrite load_from_line by done. rewrite IH, last_description_cons. done.
Qed.

(** White space in front of the rest is skipped. *)
Lemma load_from_space ws rest d0 :
  Forall (fun c => isspace c = true) ws ->
  load_from (open_stream (ws ++ rest)) d0 = load_from (open_stream rest) d0.
Proof.
  intros Hws.
  pose proof (loadTasks_loop_load_from (S (length (ws ++ rest)))
                (open_stream rest) 0 0 d0 []) as H1.
  pose proof (loadTasks_loop_load_from (S (length (ws ++ rest)))
                (open_stream (ws ++ rest)) 0 0 d0 []) as H2.
  cbn [buf open_stream] in H1, H2.
  specialize (H1 ltac:(rewrite length_app; lia)). specialize (H2 ltac:(lia)).
  cbn [app] in H1, H2.
  apply (inj Some). rewrite <- H1, <- H2.
  cbn [loadTasks_loop].
  assert (extract_int (open_stream (ws ++ rest)) 0 = extract_int (open_stream rest) 0) as ->;
    [| done].
  unfold extract_int, sentry, open_stream, good. cbn [negb andb eofbit failbit buf].
  by rewrite skipws_app.
Qed.

Lemma load_from_stop rest d0 : header_fails rest -> load_from (open_stream rest) d0 = [].
Proof.
  intros H. unfold load_from. by rewrite loadTasks_loop_stop.
Qed.

(** ** What the loader returns *)

Lemma split_line_no_nl b : nl ∉ (split_line b).1.
Proof.
  induction b as [| c b IH]; cbn [split_line]; [by apply not_elem_of_nil |].
  destruct (Z.eqb_spec (code c) 10) as [E | E]; [by apply not_elem_of_nil |].
  destruct (split_line b) as [l k]. cbn [fst] in *.
  apply not_elem_of_cons. split; [| done]. intros Hc. apply E. by rewrite <- Hc.
Qed.

Lemma getline_no_nl s old : nl ∉ old -> nl ∉ (getline s old).2.
Proof.
  intros Hold. unfold getline.
  destruct (sentry true s) as [s1 []]; cbn [negb snd]; [| done].
  pose proof (split_line_no_nl (buf s1)) as H.
  by destruct (split_line (buf s1)) as [l [r |]].
Qed.

Lemma loadTasks_loop_wf fuel file i c d acc r :
  nl ∉ d -> Forall wf_task acc ->
  loadTasks_loop fuel file i c d acc = Some r -> Forall wf_task r.
Proof.
  revert file i c d acc.
  induction fuel as [| fuel IH]; intros file i c d acc Hd Hacc H; [done |].
  cbn [loadTasks_loop] in H.
  pose proof (extract_int_in_int file i) as Hi.
  pose proof (extract_int_failed (extract_int file i).1 c) as Hf.
  destruct (extract_int file i) as [file1 i1]. cbn [fst snd] in *.
  destruct (extract_int file1 c) as [file2 c1]. cbn [fst] in *.
  destruct (failbit file2) eqn:E2; [by injection H as <- |].
  pose proof (getline_no_nl (ignore file2) d Hd) as Hd1.
  destruct (getline (ignore file2) d) as [file4 d1]. cbn [snd] in Hd1.
  eapply IH; [exact Hd1 | | exact H].
  apply Forall_app. split; [done |]. apply Forall_cons. split; [| done].
  destruct (failbit file1); [by specialize (Hf eq_refl) |].
  split; [destruct (c1 =? 0); by apply Hi | by destruct (c1 =? 0)].
Qed.

Lemma parse_tasks_wf content loaded :
  parse_tasks content = Some loaded -> Forall wf_task loaded.
Proof.
  apply loadTasks_loop_wf; [by apply not_elem_of_nil | constructor].
Qed.

Lemma loadTasks_returns_well_formed_aux (this : FileHandler) (w : World) :
  exists loaded, loadTasks this w = (Ok loaded, w) /\ Forall wf_task loaded.
Proof.
  unfold loadTasks. destruct (files (fs w) !! filename this) as [content |].
  - destruct (parse_tasks_total content) as [loaded Hloaded]. rewrite Hloaded.
    exists loaded. split; [done |]. by eapply parse_tasks_wf.
  - exists []. split; [done | constructor].
Qed.

(** X1.  Whatever the file holds, [loadTasks] returns normally and
    leaves the world as it was, and every task it returns has an id
    within [int] and a description without line feed. *)
Theorem loadTasks_returns_well_formed (this : FileHandler) (w : World) :
  exists loaded, loadTasks this w = (Ok loaded, w) /\ Forall wf_task loaded.
Proof. apply loadTasks_returns_well_formed_aux. Qed.

(** X2.  What was loaded reloads: on a path that can be written, saving
    the tasks that [loadTasks] returned, whatever the file held, and
    loading again returns the same tasks. *)
Theorem reload_after_save (this : FileHandler) (w : World) :
  filename this ∉ locked (fs w) ->
  exists loaded w',
    loadTasks this w = (Ok loaded, w)
    /\ saveTasks this loaded w = (Ok tt, w')
    /\ loadTasks this w' = (Ok loaded, w').
Proof.
  intros Hopen.
  destruct (loadTasks_returns_well_formed_aux this w) as (loaded & Hload & Hwf).
  exists loaded. eexists. split; [done |]. split.
  - unfold saveTasks. by rewrite decide_False.
  - unfold loadTasks. cbn [fs files]. rewrite lookup_insert_eq.
    by rewrite parse_tasks_written.
Qed.

Lemma reload_after_save_witness :
  exists loaded w',
    loadTasks checklist_txt garbled_world = (Ok loaded, garbled_world)
    /\ saveTasks checklist_txt loaded garbled_world = (Ok tt, w')
    /\ loadTasks checklist_txt w' = (Ok loaded, w').
Proof. apply reload_after_save. apply (bool_decide_unpack _). by vm_compute. Defined.

(** ** Line feeds in descriptions *)

Lemma encode_split task a b :
  getDescription task = a ++ nl :: b ->
  encode task
  = record_line (getId task) (if isCompleted task then 1 else 0) a ++ b ++ [nl].
Proof.
  intros Hd. unfold encode, record_line. rewrite Hd.
  by repeat (rewrite <- app_assoc; cbn [app]).
Qed.

Lemma first_line_feed (tasks : list Task) :
  ~ Forall (fun task => nl ∉ getDescription task) tasks ->
  exists pre task post a b,
    tasks = pre ++ task :: post
    /\ Forall (fun task => nl ∉ getDescription task) pre
    /\ getDescription task = a ++ nl :: b /\ nl ∉ a.
Proof.
  induction tasks as [| t tasks IH]; intros Hnot; [by destruct Hnot |].
  destruct (decide (nl ∈ getDescription t)) as [Hin | Hout].
  - apply list_elem_of_split_l in Hin as (a & b & Hd & Ha).
    by exists [], t, tasks, a, b.
  - destruct IH as (pre & task & post & a & b & -> & Hpre & Hd & Ha).
    { intros Hall. apply Hnot. by constructor. }
    exists (t :: pre), task, post, a, b. split_and!; try done. by constructor.
Qed.

(** X3.  The condition of the round trip is necessary: for tasks with
    ids within [int], what [saveTasks] writes is read back by
    [loadTasks] as the same sequence exactly when no description holds
    a line feed. *)
Theorem roundtrip_iff_no_line_feed (tasks : list Task) :
  Forall (fun task => in_int (getId task)) tasks ->
  parse_tasks (write_tasks tasks) = Some tasks
  <-> Forall (fun task => nl ∉ getDescription task) tasks.
Proof.
  intros Hids. split.
  - intros Hround. destruct (decide (Forall (fun task => nl ∉ getDescription task) tasks))
      as [Hall | Hnot]; [done | exfalso].
    destruct (first_line_feed tasks Hnot)
      as (pre & t & post & a & b & -> & Hpre & Hd & Ha).
    apply Forall_app in Hids as [Hipre Hit]. apply Forall_cons in Hit as [Hit _].
    rewrite parse_tasks_load_from, write_tasks_concat in Hround.
    rewrite map_app, concat_app in Hround. cbn [map concat] in Hround.
    rewrite (encode_split t a b Hd), <- !app_assoc in Hround.
    replace (concat (map encode pre))
      with (concat (map fields_line (map task_fields pre))) in Hround
      by (by rewrite map_map).
    rewrite load_from_lines in Hround.
    2:{ apply task_fields_wf, Forall_forall. intros x Hx.
        rewrite Forall_forall in Hipre, Hpre. split; [by apply Hipre | by apply Hpre]. }
    rewrite load_from_line in Hround by (done || apply in_int_flag).
    rewrite task_fields_task in Hround.
    injection Hround as Hround. apply app_inv_head in Hround.
    injection Hround as Ht _.
    assert (getDescription (record_task (getId t) (if isCompleted t then 1 else 0) a)
            = a) as Hda by (by destruct (isCompleted t)).
    rewrite Ht, Hd in Hda. apply (f_equal length) in Hda.
    rewrite length_app in Hda. cbn [length] in Hda. lia.
  - intros Hall. apply parse_tasks_written, Forall_forall. intros t Ht.
    rewrite Forall_forall in Hids, Hall. split; [by apply Hids | by apply Hall].
Qed.

Lemma roundtrip_iff_no_line_feed_witness :
  parse_tasks (write_tasks [buy_milk; two_line_task]) = Some [buy_milk; two_line_task]
  <-> Forall (fun task => nl ∉ getDescription task) [buy_milk; two_line_task].
Proof.
  apply roundtrip_iff_no_line_feed.
  repeat (apply Forall_cons; split; [unfold in_int, INT_MIN, INT_MAX; simpl; lia |]).
  apply List.Forall_nil.
Defined.

(** ** Tolerance and edges of the loader *)

(** X4.  White space between records is skipped: after any number of
    well-formed lines, white space (blank lines included) in front of
    what follows does not change what is loaded. *)
Theorem white_space_between_records (rs : list fields) (ws tail : text) :
  Forall fields_wf rs ->
  Forall (fun c => isspace c = true) ws ->
  parse_tasks (concat (map fields_line rs) ++ ws ++ tail)
  = parse_tasks (concat (map fields_line rs) ++ tail).
Proof.
  intros Hwf Hws. rewrite !parse_tasks_load_from, !load_from_lines by done.
  by rewrite load_from_space.
Qed.

Lemma white_space_between_records_witness :
  parse_tasks (concat (map fields_line [(1, 0, txt "Buy milk")])
               ++ lf "| |" ++ lf "2 1 Walk dog|")
  = parse_tasks (concat (map fields_line [(1, 0, txt "Buy milk")]) ++ lf "2 1 Walk dog|").
Proof.
  apply white_space_between_records.
  - apply Forall_cons; split; [| apply List.Forall_nil].
    split; [| split]; [unfold in_int, INT_MIN, INT_MAX; simpl; lia ..
                      | apply (bool_decide_unpack _); by vm_compute].
  - by repeat constructor.
Defined.

(** A round of the loop on a record whose flag is followed by any
    character that is not a digit. *)
Lemma load_from_record i f c d rest d0 :
  in_int i -> in_int f -> isdigit c = false -> nl ∉ d ->
  load_from (open_stream (put_int i ++ txt " " ++ put_int f ++ c :: d ++ nl :: rest)) d0
  = record_task i f d :: load_from (open_stream rest) d.
Proof.
  intros Hi Hf Hc Hd.
  remember (S (length (put_int i ++ txt " " ++ put_int f ++ c :: d ++ nl :: rest)))
    as n eqn:Hn.
  pose proof (loadTasks_loop_load_from (S n)
                (open_stream (put_int i ++ txt " " ++ put_int f ++ c :: d ++ nl :: rest))
                0 0 d0 []) as H.
  specialize (H ltac:(cbn [buf open_stream]; lia)).
  cbn [loadTasks_loop] in H.
  change (put_int i ++ txt " " ++ put_int f ++ c :: d ++ nl :: rest)
    with ([] ++ put_int i ++ " "%char :: (put_int f ++ c :: d ++ nl :: rest)) in H.
  rewrite extract_int_field in H; [| constructor | done | done].
  change (open_stream (" "%char :: put_int f ++ ?r))
    with (open_stream (txt " " ++ put_int f ++ r)) in H.
  rewrite extract_int_field in H; [| apply space_is_space | done | done].
  cbn [failbit open_stream] in H.
  change {| buf := ?b; eofbit := false; failbit := false |} with (open_stream b) in H.
  rewrite ignore_cons, getline_line in H by done.
  cbv beta iota zeta in H.
  rewrite loadTasks_loop_load_from in H.
  - injection H as H. symmetry. exact H.
  - cbn [buf open_stream]. rewrite Hn.
    repeat (rewrite length_app; cbn [length]). lia.
Qed.

(** X5.  The character after the flag is dropped unchecked: any
    character that is not a digit serves as the separator, a line feed
    included, in which case the description is taken from the next
    line. *)
Theorem separator_is_not_checked
    (rs : list fields) (i f : Z) (c : ascii) (d rest : text) :
  Forall fields_wf rs -> in_int i -> in_int f -> isdigit c = false -> nl ∉ d ->
  parse_tasks (concat (map fields_line rs)
               ++ put_int i ++ txt " " ++ put_int f ++ c :: d ++ nl :: rest)
  = parse_tasks (concat (map fields_line rs) ++ record_line i f d ++ rest).
Proof.
  intros Hwf Hi Hf Hc Hd. rewrite !parse_tasks_load_from, !load_from_lines by done.
  by rewrite load_from_record, load_from_line.
Qed.

Lemma separator_is_not_checked_witness :
  parse_tasks (concat (map fields_line [(1, 0, txt "Buy milk")])
               ++ put_int 2 ++ txt " " ++ put_int 1 ++ nl :: txt "Walk dog" ++ nl :: [])
  = parse_tasks (concat (map fields_line [(1, 0, txt "Buy milk")])
                 ++ record_line 2 1 (txt "Walk dog") ++ []).
Proof.
  apply separator_is_not_checked.
  - apply Forall_cons; split; [| apply List.Forall_nil].
    split; [| split]; [unfold in_int, INT_MIN, INT_MAX; simpl; lia ..
                      | apply (bool_decide_unpack _); by vm_compute].
  - unfold in_int, INT_MIN, INT_MAX; lia.
  - unfold in_int, INT_MIN, INT_MAX; lia.
  - reflexivity.
  - apply (bool_decide_unpack _). by vm_compute.
Defined.

(** The last round of the loop on a record that ends with its flag. *)
Lemma load_from_cut i f d0 :
  in_int i -> in_int f ->
  load_from (open_stream (put_int i ++ txt " " ++ put_int f)) d0 = [record_task i f d0].
Proof.
  intros Hi Hf.
  remember (S (length (put_int i ++ txt " " ++ put_int f))) as n eqn:Hn.
  pose proof (loadTasks_loop_load_from (S n)
                (open_stream (put_int i ++ txt " " ++ put_int f)) 0 0 d0 []) as H.
  specialize (H ltac:(cbn [buf open_stream]; lia)).
  cbn [loadTasks_loop] in H.
  change (put_int i ++ txt " " ++ put_int f)
    with ([] ++ put_int i ++ " "%char :: (put_int f)) in H.
  rewrite extract_int_field in H; [| constructor | done | done].
  rewrite <- (app_nil_r (put_int f)) in H at 1.
  change (open_stream (" "%char :: put_int f ++ []))
    with (open_stream (txt " " ++ put_int f ++ [])) in H.
  rewrite extract_int_put_int in H; [| apply space_is_space | done | done].
  cbn [failbit] in H.
  change (ignore {| buf := []; eofbit := true; failbit := false |})
    with {| buf := []; eofbit := true; failbit := true |} in H.
  change (getline {| buf := []; eofbit := true; failbit := true |} d0)
    with ({| buf := []; eofbit := true; failbit := true |}, d0) in H.
  cbv beta iota zeta in H.
  destruct n as [| n]; [done |]. cbn [loadTasks_loop] in H.
  rewrite (surjective_pairing (extract_int _ i)) in H.
  rewrite (surjective_pairing (extract_int _ f)) in H.
  rewrite (extract_int_failed _ f) in H.
  - injection H as H. symmetry. exact H.
  - by apply extract_int_failed.
Qed.

(** X6.  A file cut off right after the flag of its last record: that
    record is loaded with the description of the record before it (the
    empty description when it is the first), because [getline] on the
    exhausted stream leaves [desc] as it was. *)
Theorem cut_off_record_repeats_description (rs : list fields) (i f : Z) :
  Forall fields_wf rs -> in_int i -> in_int f ->
  parse_tasks (concat (map fields_line rs) ++ put_int i ++ txt " " ++ put_int f)
  = Some (map fields_task rs ++ [record_task i f (last_description [] rs)]).
Proof.
  intros Hwf Hi Hf. rewrite parse_tasks_load_from, load_from_lines by done.
  by rewrite load_from_cut.
Qed.

Lemma cut_off_record_repeats_description_witness :
  parse_tasks (concat (map fields_line [(1, 0, txt "Buy milk")])
               ++ put_int 2 ++ txt " " ++ put_int 1)
  = Some (map fields_task [(1, 0, txt "Buy milk")]
          ++ [record_task 2 1 (last_description [] [(1, 0, txt "Buy milk")])]).
Proof.
  apply cut_off_record_repeats_description.
  - apply Forall_cons; split; [| apply List.Forall_nil].
    split; [| split]; [unfold in_int, INT_MIN, INT_MAX; simpl; lia ..
                      | apply (bool_decide_unpack _); by vm_compute].
  - unfold in_int, INT_MIN, INT_MAX; lia.
  - unfold in_int, INT_MIN, INT_MAX; lia.
Defined.

(** Extraction of a numeral whose value is outside [int] fails. *)
Lemma extract_int_out_of_range ws z rest old :
  Forall (fun c => isspace c = true) ws -> ~ in_int z -> no_digit_head rest ->
  failbit (extract_int (open_stream (ws ++ put_int z ++ rest)) old).1 = true.
Proof.
  intros Hws Hz Hrest.
  destruct (put_int_spec z) as (ds & Heq & Hall & Hne & Hval).
  destruct ds as [| d ds]; [done |].
  pose proof (Forall_inv Hall) as Hd. cbn beta in Hd.
  destruct (isdigit_not_sign _ Hd) as (Hsp & _).
  unfold extract_int. rewrite Heq. unfold sign_of, in_int in *.
  destruct (Z.ltb_spec z 0) as [Hneg | Hpos].
  - change (ws ++ ([ascii_of_N 45] ++ d :: ds) ++ rest)
      with (ws ++ ascii_of_N 45 :: (d :: ds) ++ rest).
    rewrite sentry_skip by done. cbn [negb buf open_stream].
    change (scan_sign (ascii_of_N 45 :: (d :: ds) ++ rest))
      with (true, (d :: ds) ++ rest).
    cbn iota. rewrite (scan_digits_app (d :: ds) rest 0 0%nat Hall Hrest), Hval.
    cbn [length Nat.add Nat.eqb].
    destruct (Z.ltb_spec (- Z.abs z) INT_MIN); [done |].
    destruct (Z.ltb_spec INT_MAX (- Z.abs z)); [done | lia].
  - change (ws ++ ([] ++ d :: ds) ++ rest) with (ws ++ d :: ds ++ rest).
    rewrite sentry_skip by done. cbn [negb buf open_stream].
    rewrite scan_sign_digit by done.
    change (d :: ds ++ rest) with ((d :: ds) ++ rest).
    cbn iota. rewrite (scan_digits_app (d :: ds) rest 0 0%nat Hall Hrest), Hval.
    cbn [length Nat.add Nat.eqb].
    destruct (Z.ltb_spec (Z.abs z) INT_MIN); [done |].
    destruct (Z.ltb_spec INT_MAX (Z.abs z)); [done | lia].
Qed.

(** X7.  A number outside [int] stops the load: when the id of a line,
    or its flag, is a numeral whose value does not fit [int], the load
    ends with the records before that line. *)
Theorem number_out_of_range_stops_load (rs : list fields) (i z : Z) (rest : text) :
  Forall fields_wf rs -> in_int i -> ~ in_int z -> no_digit_head rest ->
  parse_tasks (concat (map fields_line rs) ++ put_int z ++ rest)
  = Some (map fields_task rs)
  /\ parse_tasks (concat (map fields_line rs) ++ put_int i ++ txt " " ++ put_int z ++ rest)
     = Some (map fields_task rs).
Proof.
  intros Hwf Hi Hz Hrest.
  rewrite !parse_tasks_load_from, !load_from_lines by done.
  rewrite !load_from_stop, app_nil_r; [done | |].
  - unfold header_fails.
    change (put_int i ++ txt " " ++ put_int z ++ rest)
      with ([] ++ put_int i ++ " "%char :: (put_int z ++ rest)).
    rewrite extract_int_field; [| constructor | done | done].
    change (open_stream (" "%char :: put_int z ++ rest))
      with (open_stream (txt " " ++ put_int z ++ rest)).
    apply extract_int_out_of_range; [apply space_is_space | done | done].
  - unfold header_fails. apply extract_int_failed.
    by apply (extract_int_out_of_range []); [constructor | |].
Qed.

Lemma number_out_of_range_stops_load_witness :
  parse_tasks (concat (map fields_line [(1, 0, txt "Buy milk")])
               ++ put_int 2147483648 ++ lf " 0 Walk dog|")
  = Some (map fields_task [(1, 0, txt "Buy milk")])
  /\ parse_tasks (concat (map fields_line [(1, 0, txt "Buy milk")])
                  ++ put_int 2 ++ txt " " ++ put_int 2147483648 ++ lf " 0 Walk dog|")
     = Some (map fields_task [(1, 0, txt "Buy milk")]).
Proof.
  apply number_out_of_range_stops_load.
  - apply Forall_cons; split; [| apply List.Forall_nil].
    split; [| split]; [unfold in_int, INT_MIN, INT_MAX; simpl; lia ..
                      | apply (bool_decide_unpack _); by vm_compute].
  - unfold in_int, INT_MIN, INT_MAX; lia.
  - unfold in_int, INT_MIN, INT_MAX; lia.
  - reflexivity.
Defined.

(** ** Saving *)

Lemma saveTasks_saved this tasks w :
  filename this ∉ locked (fs w) -> saveTasks this tasks w = (Ok tt, saved this tasks w).
Proof. intros Hopen. unfold saveTasks. by rewrite decide_False. Qed.

(** X8.  [saveTasks] replaces the content of its file: on a path that
    can be written, a save followed by a second save leaves exactly
    what the second save alone leaves.  It touches no other file and
    none of the streams. *)
Theorem save_replaces_content (this : FileHandler) (first second : list Task) (w : World) :
  filename this ∉ locked (fs w) ->
  exists w1 w2,
    saveTasks this first w = (Ok tt, w1)
    /\ saveTasks this second w1 = (Ok tt, w2)
    /\ saveTasks this second w = (Ok tt, w2)
    /\ files (fs w2) !! filename this = Some (write_tasks second)
    /\ (forall other, other <> filename this ->
          files (fs w2) !! other = files (fs w) !! other)
    /\ locked (fs w2) = locked (fs w)
    /\ cin w2 = cin w /\ cout w2 = cout w /\ cerr w2 = cerr w.
Proof.
  intros Hopen. exists (saved this first w), (saved this second w).
  rewrite !saveTasks_saved by done. split_and!; try done.
  - unfold saved. cbn [fs files locked cin cout cerr]. by rewrite insert_insert_eq.
  - cbn [saved fs files]. apply lookup_insert_eq.
  - intros other Hother. cbn [saved fs files]. by rewrite lookup_insert_ne.
Qed.

Lemma save_replaces_content_witness :
  exists w1 w2,
    saveTasks checklist_txt [buy_milk; walk_dog] garbled_world = (Ok tt, w1)
    /\ saveTasks checklist_txt [walk_dog] w1 = (Ok tt, w2)
    /\ saveTasks checklist_txt [walk_dog] garbled_world = (Ok tt, w2)
    /\ files (fs w2) !! filename checklist_txt = Some (write_tasks [walk_dog])
    /\ (forall other, other <> filename checklist_txt ->
          files (fs w2) !! other = files (fs garbled_world) !! other)
    /\ locked (fs w2) = locked (fs garbled_world)
    /\ cin w2 = cin garbled_world /\ cout w2 = cout garbled_world
    /\ cerr w2 = cerr garbled_world.
Proof.
  apply save_replaces_content. apply (bool_decide_unpack _). by vm_compute.
Defined.

(** ** From one run to the next *)

(** X9.  What the destructor saves, the next constructor loads: for a
    store whose tasks have descriptions without line feed (and ids
    within [int]) on a path that can be written, destroying the store
    and constructing one from the same path gives the same tasks in the
    same order.  The counter is not saved: it is computed again from
    the ids that are left. *)
Theorem store_survives_restart (this : ChecklistManager) (w : World) :
  Forall wf_task (tasks this) ->
  filename (fileHandler this) ∉ locked (fs w) ->
  exists w',
    ChecklistManager_dtor this w = (Ok tt, w')
    /\ cerr w' = cerr w
    /\ ChecklistManager_ctor (filename (fileHandler this)) w'
       = (Ok {| tasks := tasks this; fileHandler := fileHandler this;
                nextId := getNextId this |}, w').
Proof.
  intros Hwf Hopen. unfold ChecklistManager_dtor, try_catch, saveTasks.
  rewrite decide_False by done. eexists. split; [reflexivity |]. split; [done |].
  unfold ChecklistManager_ctor, bind, loadTasks. cbn [filename fs files].
  rewrite lookup_insert_eq, parse_tasks_written by done.
  unfold ret. by destruct this as [ts [fname] n].
Qed.

Lemma store_survives_restart_witness :
  exists w',
    ChecklistManager_dtor two_tasks (quiet_world no_files []) = (Ok tt, w')
    /\ cerr w' = cerr (quiet_world no_files [])
    /\ ChecklistManager_ctor (filename (fileHandler two_tasks)) w'
       = (Ok {| tasks := tasks two_tasks; fileHandler := fileHandler two_tasks;
                nextId := getNextId two_tasks |}, w').
Proof.
  apply store_survives_restart.
  - cbn [tasks two_tasks]. wf_concrete.
  - apply (bool_decide_unpack _). by vm_compute.
Defined.

Lemma getNextId_fold this : getNextId this = wrap_int (fold_max (tasks this) 0 + 1).
Proof. reflexivity. Qed.

(** X10.  After a restart the counter is not greater than it was, as
    long as it was at least 1.  In a store whose counter is a value of
    type [int] and whose ids are all below the counter: when the
    counter is at least 1, the counter that the constructor would
    compute is at most the current one, and equal to it when the task
    with the id just below the counter is still there, so the ids of
    tasks removed from the end can be given out again in the next run;
    when the counter is below 1, the constructor would compute 1. *)
Theorem restart_counter_not_greater (this : ChecklistManager) :
  in_int (nextId this) -> ids_below this ->
  (1 <= nextId this ->
     getNextId this <= nextId this
     /\ (nextId this - 1 ∈ map getId (tasks this) -> getNextId this = nextId this))
  /\ (nextId this < 1 -> getNextId this = 1).
Proof.
  intros Hint Hbelow. rewrite getNextId_fold.
  destruct (fold_max_spec (tasks this) 0) as (H0 & Hle & Hor).
  unfold ids_below in Hbelow. rewrite Forall_forall in Hbelow.
  split.
  - intros Hpos.
    assert (fold_max (tasks this) 0 < nextId this) as Hlt.
    { destruct Hor as [-> | (t & Hin & <-)]; [lia | by apply Hbelow]. }
    rewrite wrap_int_id by (unfold in_int, INT_MIN, INT_MAX in *; lia).
    split; [lia |].
    intros (t & Ht & Hin)%list_elem_of_fmap. specialize (Hle t Hin). lia.
  - intros Hneg.
    assert (fold_max (tasks this) 0 = 0) as ->.
    { destruct Hor as [Heq | (t & Hin & Heq)]; [done |].
      specialize (Hbelow t Hin). cbn beta in Hbelow. lia. }
    reflexivity.
Qed.

Lemma restart_counter_not_greater_witness :
  (1 <= nextId two_tasks ->
     getNextId two_tasks <= nextId two_tasks
     /\ (nextId two_tasks - 1 ∈ map getId (tasks two_tasks) ->
         getNextId two_tasks = nextId two_tasks))
  /\ (nextId two_tasks < 1 -> getNextId two_tasks = 1).
Proof.
  apply restart_counter_not_greater.
  - by vm_compute.
  - repeat (apply Forall_cons; split; [by vm_compute |]). apply List.Forall_nil.
Defined.

(** ** Removing *)

Lemma present_id (id : Z) (tasks : list Task) :
  id ∈ map getId tasks <-> exists task, task ∈ tasks /\ getId task = id.
Proof.
  split.
  - intros (task & -> & Hin)%list_elem_of_fmap. by exists task.
  - intros (task & Hin & <-). by apply list_elem_of_fmap_2.
Qed.

Lemma removeTask_present id this w :
  id ∈ map getId (tasks this) ->
  removeTask id this w
  = (Ok {| tasks := filter (fun task => getId task <> id) (tasks this);
           fileHandler := fileHandler this; nextId := nextId this |},
     said (line "Task removed successfully!") w).
Proof.
  intros (task & Hin & Hid)%present_id. unfold removeTask.
  rewrite decide_True; [done |].
  pose proof (length_filter_lt (fun task => getId task <> id) (tasks this) task Hin).
  cbn beta in *. lia.
Qed.

Lemma filter_absent id (tasks : list Task) :
  id ∉ map getId (filter (fun task => getId task <> id) tasks).
Proof.
  intros (task & Hin & Hid)%present_id.
  by apply list_elem_of_filter in Hin as [Hne _].
Qed.

(** X11.  Removing an id that is present: [removeTask] reports success
    and removes every task with that id and no other: the sequence it
    leaves is the old one without the tasks that have the id, the
    others in their order and as often as they occurred.  The sequence
    gets shorter, and the counter and the file handler are not
    touched. *)
Theorem removeTask_removes_all_with_id (id : Z) (this : ChecklistManager) (w : World) :
  id ∈ map getId (tasks this) ->
  exists this',
    removeTask id this w = (Ok this', said (line "Task removed successfully!") w)
    /\ tasks this' = filter (fun task => getId task <> id) (tasks this)
    /\ (id ∉ map getId (tasks this'))
    /\ (forall task, task ∈ tasks this' <-> task ∈ tasks this /\ getId task <> id)
    /\ (tasks this' `sublist_of` tasks this)
    /\ (length (tasks this') < length (tasks this))%nat
    /\ nextId this' = nextId this /\ fileHandler this' = fileHandler this.
Proof.
  intros Hin. eexists. split; [by apply removeTask_present |]. cbn [tasks nextId fileHandler].
  split_and!; try done.
  - apply filter_absent.
  - intros task. rewrite list_elem_of_filter. tauto.
  - apply sublist_filter.
  - apply present_id in Hin as (task & Hin & Hid).
    apply (length_filter_lt _ _ task); [done |]. cbn beta. lia.
Qed.

Lemma removeTask_removes_all_with_id_witness :
  exists this',
    removeTask 1 {| tasks := [buy_milk; walk_dog; buy_milk; walk_dog];
                    fileHandler := checklist_txt; nextId := 3 |} (quiet_world no_files [])
    = (Ok this', said (line "Task removed successfully!") (quiet_world no_files []))
    /\ tasks this' = filter (fun task => getId task <> 1) [buy_milk; walk_dog; buy_milk; walk_dog]
    /\ (1 ∉ map getId (tasks this'))
    /\ (forall task, task ∈ tasks this'
                     <-> task ∈ [buy_milk; walk_dog; buy_milk; walk_dog] /\ getId task <> 1)
    /\ (tasks this' `sublist_of` [buy_milk; walk_dog; buy_milk; walk_dog])
    /\ (length (tasks this') < 4)%nat
    /\ nextId this' = 3 /\ fileHandler this' = checklist_txt.
Proof.
  apply (removeTask_removes_all_with_id 1
           {| tasks := [buy_milk; walk_dog; buy_milk; walk_dog];
              fileHandler := checklist_txt; nextId := 3 |}).
  apply (bool_decide_unpack _). by vm_compute.
Defined.

(** X12.  Removing twice: whatever the store and the id, a second
    [removeTask] with the same id finds nothing; it reports "not found"
    and leaves the store as the first call left it. *)
Theorem removeTask_twice (id : Z) (this : ChecklistManager) (w : World) :
  exists this1 w1,
    removeTask id this w = (Ok this1, w1)
    /\ removeTask id this1 w1 = (Ok this1, said (line "Task not found!") w1).
Proof.
  destruct (decide (id ∈ map getId (tasks this))) as [Hin | Hout].
  - eexists _, _. split; [by apply removeTask_present |].
    apply removeTask_absent. cbn [tasks]. apply filter_absent.
  - eexists _, _. split; [by apply removeTask_absent |]. by apply removeTask_absent.
Qed.

Lemma unique_split (tasks : list Task) (task : Task) :
  NoDup (map getId tasks) -> task ∈ tasks ->
  exists pre post,
    tasks = pre ++ task :: post
    /\ (getId task ∉ map getId pre) /\ (getId task ∉ map getId post).
Proof.
  intros Hnd Hin. apply list_elem_of_split in Hin as (pre & post & ->). exists pre, post.
  split; [done |]. rewrite map_app in Hnd. cbn [map] in Hnd.
  apply NoDup_app in Hnd as (_ & Hpre & Hpost%NoDup_cons).
  split; [| by destruct Hpost].
  intros Hin. apply (Hpre _ Hin). apply elem_of_cons. by left.
Qed.

(** X13.  With unique ids [removeTask] removes exactly one task: the
    sequence that is left is the old one without the task that had the
    id, everything before and after it unchanged. *)
Theorem removeTask_removes_one (id : Z) (this : ChecklistManager) (w : World) :
  unique_ids this -> id ∈ map getId (tasks this) ->
  exists pre task post this',
    tasks this = pre ++ task :: post /\ getId task = id
    /\ removeTask id this w = (Ok this', said (line "Task removed successfully!") w)
    /\ tasks this' = pre ++ post.
Proof.
  intros Hnd Hin. pose proof Hin as (task & Htask & Hid)%present_id.
  destruct (unique_split _ _ Hnd Htask) as (pre & post & Heq & Hpre & Hpost).
  exists pre, task, post. eexists. split; [done |]. split; [done |].
  split; [by apply removeTask_present |]. cbn [tasks].
  rewrite Heq, filter_app, filter_cons_False by (intros H; by apply H).
  rewrite Hid in Hpre, Hpost. by rewrite !filter_all by (by apply absent_id).
Qed.

Lemma removeTask_removes_one_witness :
  exists pre task post this',
    tasks three_tasks = pre ++ task :: post /\ getId task = 2
    /\ removeTask 2 three_tasks (quiet_world no_files [])
       = (Ok this', said (line "Task removed successfully!") (quiet_world no_files []))
    /\ tasks this' = pre ++ post.
Proof.
  apply removeTask_removes_one.
  - apply (bool_decide_unpack _). by vm_compute.
  - apply (bool_decide_unpack _). by vm_compute.
Defined.

(** ** Adding and the counter *)

Lemma ids_below_fresh this : ids_below this -> nextId this ∉ map getId (tasks this).
Proof.
  intros Hbelow (task & Hin & Hid)%present_id.
  unfold ids_below in Hbelow. rewrite Forall_forall in Hbelow.
  specialize (Hbelow task Hin). lia.
Qed.

(** X14.  [addTask] appends and gives a fresh id: the new task comes
    last, carries the counter as id, the given description and no
    completion; the tasks already there stay as they are, and when
    every id in the store is below the counter the new id is not
    among them. *)
Theorem addTask_appends_fresh (description : text) (this : ChecklistManager) (w : World) :
  ids_below this ->
  exists this',
    addTask description this w = (Ok this', said (line "Task added successfully!") w)
    /\ tasks this'
       = tasks this ++ [{| id := nextId this; description := description;
                           completed := false |}]
    /\ (nextId this ∉ map getId (tasks this))
    /\ (forall i task, tasks this !! i = Some task -> tasks this' !! i = Some task)
    /\ fileHandler this' = fileHandler this.
Proof.
  intros Hbelow. eexists. split; [apply addTask_result |]. cbn [tasks fileHandler].
  split_and!; try done.
  - by apply ids_below_fresh.
  - intros i task Hi. by apply lookup_app_l_Some.
Qed.

Lemma addTask_appends_fresh_witness :
  exists this',
    addTask (txt "Pay rent") two_tasks (quiet_world no_files [])
    = (Ok this', said (line "Task added successfully!") (quiet_world no_files []))
    /\ tasks this'
       = tasks two_tasks ++ [{| id := nextId two_tasks; description := txt "Pay rent";
                                completed := false |}]
    /\ (nextId two_tasks ∉ map getId (tasks two_tasks))
    /\ (forall i task, tasks two_tasks !! i = Some task -> tasks this' !! i = Some task)
    /\ fileHandler this' = fileHandler two_tasks.
Proof.
  apply addTask_appends_fresh.
  repeat (apply Forall_cons; split; [by vm_compute |]). apply List.Forall_nil.
Defined.

Lemma store_ok_add description this :
  store_ok this -> nextId this < INT_MAX ->
  store_ok {| tasks := tasks this ++ [newTask (nextId this) description];
              fileHandler := fileHandler this;
              nextId := wrap_int (nextId this + 1) |}.
Proof.
  intros (Hint & Hbelow & Hnd) Hmax.
  assert (wrap_int (nextId this + 1) = nextId this + 1) as Hw
    by (apply wrap_int_id; unfold in_int, INT_MIN, INT_MAX in *; lia).
  split_and!.
  - cbn [nextId]. apply wrap_int_range.
  - unfold ids_below in *. cbn [tasks nextId]. rewrite Hw.
    apply Forall_app. split.
    + eapply Forall_impl; [exact Hbelow |]. cbn beta. intros; lia.
    + apply Forall_cons. split; [cbn; lia | constructor].
  - unfold unique_ids in *. cbn [tasks]. rewrite map_app. cbn [map].
    apply NoDup_app. split; [done |]. split; [| apply NoDup_singleton].
    intros x Hx Hx'%list_elem_of_singleton. subst x.
    by apply (ids_below_fresh this).
Qed.

Lemma filter_keeps_unique (P : Task -> Prop) `{!forall x, Decision (P x)} (l : list Task) :
  NoDup (map getId l) -> NoDup (map getId (filter P l)).
Proof.
  induction l as [| x l IH]; [done |]. cbn [map]. intros [Hx Hnd]%NoDup_cons.
  rewrite filter_cons. case_decide; [| by apply IH].
  cbn [map]. apply NoDup_cons. split; [| by apply IH].
  intros (task & Hin & Hid)%present_id. apply Hx, present_id.
  exists task. split; [| done]. by apply list_elem_of_filter in Hin as [_ Hin].
Qed.

Lemma store_ok_remove id this :
  store_ok this ->
  store_ok {| tasks := filter (fun task => getId task <> id) (tasks this);
              fileHandler := fileHandler this; nextId := nextId this |}.
Proof.
  intros (Hint & Hbelow & Hnd). split_and!; [done | |].
  - unfold ids_below in *. cbn [tasks nextId]. rewrite Forall_forall in *.
    intros task [_ Hin]%list_elem_of_filter. by apply Hbelow.
  - unfold unique_ids in *. cbn [tasks]. by apply filter_keeps_unique.
Qed.

Lemma store_ok_toggle it this :
  store_ok this ->
  store_ok {| tasks := alter toggleComplete it (tasks this);
              fileHandler := fileHandler this; nextId := nextId this |}.
Proof.
  intros (Hint & Hbelow & Hnd). split_and!; [done | |].
  - unfold ids_below in *. cbn [tasks nextId].
    apply Forall_alter; [done |]. by intros [d c i] _.
  - unfold unique_ids in *. cbn [tasks]. by rewrite map_alter_same.
Qed.

(** X15.  The operations keep the ids unique.  In a store whose
    counter is within [int], whose ids are below the counter and
    distinct, [removeTask] and [toggleTask] always, and [addTask] while
    the counter is below [INT_MAX], return a store of which the same
    holds. *)
Theorem operations_keep_store_ok (this : ChecklistManager) (w : World) :
  store_ok this ->
  (forall description, nextId this < INT_MAX ->
     exists this' w', addTask description this w = (Ok this', w') /\ store_ok this')
  /\ (forall id, exists this' w', removeTask id this w = (Ok this', w') /\ store_ok this')
  /\ (forall id, exists this' w', toggleTask id this w = (Ok this', w') /\ store_ok this').
Proof.
  intros Hok. split_and!.
  - intros description Hmax. eexists _, _. split; [apply addTask_result |].
    by apply store_ok_add.
  - intros id. destruct (decide (id ∈ map getId (tasks this))) as [Hin | Hout].
    + eexists _, _. split; [by apply removeTask_present |]. by apply store_ok_remove.
    + eexists _, _. split; [by apply removeTask_absent | done].
  - intros id. destruct (first_with_id id (tasks this)) as [[it task] |] eqn:Hfind.
    + eexists _, _. split; [by apply (toggleTask_found id this w it task) |].
      by apply store_ok_toggle.
    + eexists _, _. split; [| exact Hok]. unfold toggleTask.
      unfold first_with_id in Hfind. by rewrite Hfind.
Qed.

Lemma store_ok_three_tasks : store_ok three_tasks.
Proof.
  split_and!.
  - by vm_compute.
  - repeat (apply Forall_cons; split; [by vm_compute |]). apply List.Forall_nil.
  - apply (bool_decide_unpack _). by vm_compute.
Qed.

Lemma operations_keep_store_ok_witness :
  (forall description, nextId three_tasks < INT_MAX ->
     exists this' w',
       addTask description three_tasks (quiet_world no_files []) = (Ok this', w')
       /\ store_ok this')
  /\ (forall id, exists this' w',
        removeTask id three_tasks (quiet_world no_files []) = (Ok this', w')
        /\ store_ok this')
  /\ (forall id, exists this' w',
        toggleTask id three_tasks (quiet_world no_files []) = (Ok this', w')
        /\ store_ok this').
Proof. apply operations_keep_store_ok. apply store_ok_three_tasks. Defined.

(** X16.  The constructor leaves every id below the counter: it always
    returns a store whose counter is within [int], and when no loaded
    id is [INT_MAX] every id of the store is below the counter, which
    is at least 1, so that the next [addTask] cannot give an id that is
    already there. *)
Theorem ctor_ids_below_counter (fname : string) (w : World) :
  exists this,
    ChecklistManager_ctor fname w = (Ok this, w)
    /\ in_int (nextId this)
    /\ (Forall (fun task => getId task < INT_MAX) (tasks this) ->
        ids_below this /\ 1 <= nextId this).
Proof.
  destruct (ctor_result fname w) as (loaded & Hctor & Hint & _).
  eexists. split; [exact Hctor |]. cbn [nextId tasks].
  split; [apply wrap_int_range |]. intros Hmax.
  rewrite getNextId_fold. cbn [tasks].
  destruct (fold_max_spec loaded 0) as (H0 & Hle & Hor).
  assert (fold_max loaded 0 < INT_MAX) as Hlt.
  { destruct Hor as [-> | (t & Hin & <-)]; [by vm_compute |].
    rewrite Forall_forall in Hmax. by apply Hmax. }
  rewrite wrap_int_id by (unfold in_int, INT_MIN, INT_MAX in *; lia).
  split; [| lia].
  unfold ids_below. cbn [tasks nextId].
  apply Forall_forall. intros task Hin. specialize (Hle task Hin). lia.
Qed.

Lemma ctor_ids_below_counter_witness :
  exists this,
    ChecklistManager_ctor "checklist.txt"
      (quiet_world (one_file "checklist.txt" three_ids_file) [])
    = (Ok this, quiet_world (one_file "checklist.txt" three_ids_file) [])
    /\ ids_below this /\ 1 <= nextId this.
Proof.
  destruct (ctor_ids_below_counter "checklist.txt"
              (quiet_world (one_file "checklist.txt" three_ids_file) []))
    as (this & Hctor & _ & Hbelow).
  exists this. split; [exact Hctor |].
  apply Hbelow. vm_compute in Hctor. injection Hctor as <-. cbn [tasks].
  repeat (apply Forall_cons; split; [by vm_compute |]). apply List.Forall_nil.
Defined.

Lemma filter_drops_last id (tasks : list Task) (task : Task) :
  getId task = id -> id ∉ map getId tasks ->
  filter (fun other => getId other <> id) (tasks ++ [task]) = tasks.
Proof.
  intros Hid Habs. rewrite filter_app, filter_cons_False by (intros H; by apply H).
  rewrite filter_nil, app_nil_r. by apply filter_all, absent_id.
Qed.

(** X17.  The id of a task just removed is not given out again.  In a
    store whose counter is a value of type [int] below [INT_MAX] and is
    not the id of any task (as it is when every id is below the
    counter): when a task is added and removed again, the sequence is
    as before but the counter has moved on, and the task added next
    gets the id after the one that was removed. *)
Theorem removed_id_is_not_reused
    (first second : text) (this : ChecklistManager) (w : World) :
  in_int (nextId this) -> nextId this < INT_MAX ->
  nextId this ∉ map getId (tasks this) ->
  exists this1 this2 this3 w3,
    addTask first this w = (Ok this1, said (line "Task added successfully!") w)
    /\ removeTask (nextId this) this1 (said (line "Task added successfully!") w)
       = (Ok this2, said (line "Task removed successfully!")
                      (said (line "Task added successfully!") w))
    /\ tasks this2 = tasks this
    /\ addTask second this2
         (said (line "Task removed successfully!") (said (line "Task added successfully!") w))
       = (Ok this3, w3)
    /\ tasks this3
       = tasks this ++ [{| id := nextId this + 1; description := second;
                           completed := false |}].
Proof.
  intros Hint Hmax Hfresh.
  eexists _, _, _, _. split; [apply addTask_result |].
  split.
  { apply removeTask_present. cbn [tasks]. rewrite map_app. cbn.
    apply elem_of_app. right. apply list_elem_of_singleton. reflexivity. }
  cbn [tasks]. rewrite filter_drops_last; [| done | done].
  split; [done |]. split; [apply addTask_result |].
  cbn [tasks nextId]. unfold newTask.
  by rewrite wrap_int_id by (unfold in_int, INT_MIN, INT_MAX in *; lia).
Qed.

Lemma removed_id_is_not_reused_witness :
  exists this1 this2 this3 w3,
    addTask (txt "Pay rent") two_tasks (quiet_world no_files [])
    = (Ok this1, said (line "Task added successfully!") (quiet_world no_files []))
    /\ removeTask (nextId two_tasks) this1
         (said (line "Task added successfully!") (quiet_world no_files []))
       = (Ok this2, said (line "Task removed successfully!")
                      (said (line "Task added successfully!") (quiet_world no_files [])))
    /\ tasks this2 = tasks two_tasks
    /\ addTask (txt "Call home") this2
         (said (line "Task removed successfully!")
            (said (line "Task added successfully!") (quiet_world no_files [])))
       = (Ok this3, w3)
    /\ tasks this3
       = tasks two_tasks ++ [{| id := nextId two_tasks + 1; description := txt "Call home";
                                completed := false |}].
Proof.
  apply removed_id_is_not_reused.
  - by vm_compute.
  - by vm_compute.
  - apply (bool_decide_unpack _). by vm_compute.
Defined.

(** ** Toggling *)

Lemma first_with_id_alter id it (tasks : list Task) :
  first_with_id id (alter toggleComplete it tasks)
  = (fun p => (p.1, if decide (p.1 = it) then toggleComplete p.2 else p.2))
      <$> first_with_id id tasks.
Proof.
  unfold first_with_id.
  destruct (list_find (fun task => getId task = id) tasks) as [[i task] |] eqn:Hfind.
  - cbn. apply list_find_Some. apply list_find_Some in Hfind as (Hi & Hid & Hfirst).
    cbn [fst snd]. split_and!.
    + rewrite list_lookup_alter. case_decide as Hd.
      * subst it. rewrite Hi. cbn. by destruct (decide (i = i)).
      * rewrite Hi. destruct (decide (i = it)); [congruence | done].
    + by case_decide; destruct task.
    + intros j y Hj Hlt. rewrite list_lookup_alter in Hj. case_decide.
      * subst it. destruct (tasks !! j) as [t |] eqn:E; cbn in Hj; [| done].
        injection Hj as <-.
        intros Hy. by apply (Hfirst j t E Hlt); destruct t.
      * by apply (Hfirst j y).
  - cbn. apply list_find_None. apply list_find_None in Hfind.
    apply Forall_alter; [done |]. by intros [d c i].
Qed.

Lemma toggle_effects_commute id1 id2 this :
  id1 <> id2 ->
  effect (effect this (Toggle id2)) (Toggle id1)
  = effect (effect this (Toggle id1)) (Toggle id2).
Proof.
  intros Hne. cbn [effect].
  destruct (first_with_id id1 (tasks this)) as [[i1 t1] |] eqn:H1;
    destruct (first_with_id id2 (tasks this)) as [[i2 t2] |] eqn:H2;
    cbn [tasks fileHandler nextId];
    rewrite ?first_with_id_alter, ?H1, ?H2; cbn [fmap option_fmap option_map fst snd];
    try done.
  cbn [tasks fileHandler nextId]. f_equal.
  apply list_alter_alter_ne. intros ->.
  apply list_find_Some in H1 as (Hi1 & Hid1 & _).
  apply list_find_Some in H2 as (Hi2 & Hid2 & _). congruence.
Qed.

(** X18.  Toggles of different ids commute: whatever the store, two
    calls of [toggleTask] with different ids leave the same store in
    either order. *)
Theorem toggles_commute (id1 id2 : Z) (this : ChecklistManager) (w : World) :
  id1 <> id2 ->
  exists this12 w12 w21,
    (do this1 <- toggleTask id1 this; toggleTask id2 this1) w = (Ok this12, w12)
    /\ (do this2 <- toggleTask id2 this; toggleTask id1 this2) w = (Ok this12, w21).
Proof.
  intros Hne. unfold bind.
  destruct (toggleTask_effect id1 this w) as (w1 & -> & _).
  destruct (toggleTask_effect id2 (effect this (Toggle id1)) w1) as (w12 & -> & _).
  destruct (toggleTask_effect id2 this w) as (w2 & -> & _).
  destruct (toggleTask_effect id1 (effect this (Toggle id2)) w2) as (w21 & -> & _).
  exists (effect (effect this (Toggle id1)) (Toggle id2)), w12, w21.
  split; [done |]. by rewrite toggle_effects_commute.
Qed.

Lemma toggles_commute_witness :
  exists this12 w12 w21,
    (do this1 <- toggleTask 1 two_tasks; toggleTask 2 this1) (quiet_world no_files [])
    = (Ok this12, w12)
    /\ (do this2 <- toggleTask 2 two_tasks; toggleTask 1 this2) (quiet_world no_files [])
       = (Ok this12, w21).
Proof. apply toggles_commute. lia. Defined.

(** ** Listing *)

Lemma fold_show_task tasks out :
  fold_left show_task tasks out = out ++ concat (map row tasks).
Proof.
  revert out. induction tasks as [| t tasks IH]; intros out; cbn [fold_left map concat].
  - by rewrite app_nil_r.
  - rewrite IH. unfold show_task, row. by repeat rewrite <- app_assoc.
Qed.

(** X19.  [listTasks] changes nothing but [std::cout]: it returns
    normally; for an empty store it prints the one message that there
    are no tasks, and otherwise the header, one line per task in the
    order of the sequence, marked [X] when completed, and the footer. *)
Theorem listTasks_prints (this : ChecklistManager) (w : World) :
  listTasks this w
  = (Ok tt,
     said (match tasks this with
           | [] => nl :: line "No tasks in the checklist."
           | _ => nl :: line "=== CHECKLIST ===" ++ concat (map row (tasks this))
                     ++ line "================="
           end) w).
Proof.
  unfold listTasks. destruct (tasks this) as [| t ts]; [done |].
  rewrite print_said, fold_show_task. by rewrite <- !app_assoc.
Qed.

(** ** Whole runs *)

(** X20.  A session is saved as carried out: when the user types
    well-formed commands and then 5, and the file can be written,
    [main] returns 0, nothing is written to [std::cerr], and the file
    then holds the lines of the tasks obtained by carrying out the
    commands, in order, on the tasks loaded at the start. *)
Theorem session_is_saved
    (indeterminate : Z) (cmds : list command) (rest : text) (fuel : nat) (w : World) :
  Forall wf_command cmds ->
  cin w = open_stream (script cmds ++ rest) ->
  (length cmds < fuel)%nat ->
  "checklist.txt" ∉ locked (fs w) ->
  exists store w',
    ChecklistManager_ctor "checklist.txt" w = (Ok store, w)
    /\ main indeterminate fuel w = (Ok 0, w')
    /\ files (fs w')
       = <["checklist.txt" := write_tasks (tasks (foldl effect store cmds))]> (files (fs w))
    /\ cerr w' = cerr w.
Proof.
  intros Hwf Hcin Hfuel Hopen.
  destruct (main_session indeterminate cmds rest fuel w Hwf Hcin Hfuel)
    as (store & w' & Hctor & Hmain & _ & Hsaved).
  exists store, w'. destruct (Hsaved Hopen) as [Hfiles Hcerr]. by split_and!.
Qed.

Lemma session_is_saved_witness :
  exists store w',
    ChecklistManager_ctor "checklist.txt"
      (quiet_world no_files (script [Add (txt "Buy milk"); Toggle 1]))
    = (Ok store, quiet_world no_files (script [Add (txt "Buy milk"); Toggle 1]))
    /\ main 7 3 (quiet_world no_files (script [Add (txt "Buy milk"); Toggle 1])) = (Ok 0, w')
    /\ files (fs w')
       = <["checklist.txt" :=
             write_tasks (tasks (foldl effect store [Add (txt "Buy milk"); Toggle 1]))]>
           (files (fs (quiet_world no_files (script [Add (txt "Buy milk"); Toggle 1]))))
    /\ cerr w' = cerr (quiet_world no_files (script [Add (txt "Buy milk"); Toggle 1])).
Proof.
  apply (session_is_saved 7 [Add (txt "Buy milk"); Toggle 1] []).
  - apply Forall_cons; split; [apply (bool_decide_unpack _); by vm_compute |].
    apply Forall_cons; split; [by vm_compute | apply List.Forall_nil].
  - cbn [cin quiet_world]. by rewrite app_nil_r.
  - simpl. lia.
  - apply (bool_decide_unpack _). by vm_compute.
Defined.

(** The tasks of a store are well formed and its counter is within
    [int]; every command of a session keeps that. *)
Lemma effect_wf m c :
  Forall wf_task (tasks m) -> in_int (nextId m) -> wf_command c ->
  Forall wf_task (tasks (effect m c)) /\ in_int (nextId (effect m c)).
Proof.
  intros Hwf Hint Hc. destruct c as [d | i | i | | z]; cbn [effect wf_command] in *;
    try done.
  - split; [| apply wrap_int_range]. cbn [tasks].
    apply Forall_app. split; [done |]. apply Forall_cons. by split; [| constructor].
  - split; [| done]. cbn [tasks]. rewrite Forall_forall in *.
    intros task [_ Hin]%list_elem_of_filter. by apply Hwf.
  - destruct (first_with_id i (tasks m)) as [[it task] |]; [| done].
    split; [| done]. cbn [tasks]. apply Forall_alter; [done |]. by intros [d c j] _.
Qed.

Lemma session_wf cmds m :
  Forall wf_task (tasks m) -> in_int (nextId m) -> Forall wf_command cmds ->
  Forall wf_task (tasks (foldl effect m cmds)).
Proof.
  intros Hwf Hint Hcmds. revert m Hwf Hint.
  induction Hcmds as [| c cmds Hc _ IH]; intros m Hwf Hint; [done |].
  cbn [foldl]. destruct (effect_wf m c Hwf Hint Hc). by apply IH.
Qed.

(** X21.  The next run starts where the session ended: after such a
    session on a file that can be written, constructing the store again
    from the file loads exactly the tasks the session left, in order;
    the counter is computed again from their ids. *)
Theorem session_then_restart
    (indeterminate : Z) (cmds : list command) (rest : text) (fuel : nat) (w : World) :
  Forall wf_command cmds ->
  cin w = open_stream (script cmds ++ rest) ->
  (length cmds < fuel)%nat ->
  "checklist.txt" ∉ locked (fs w) ->
  exists store w',
    ChecklistManager_ctor "checklist.txt" w = (Ok store, w)
    /\ main indeterminate fuel w = (Ok 0, w')
    /\ ChecklistManager_ctor "checklist.txt" w'
       = (Ok {| tasks := tasks (foldl effect store cmds);
                fileHandler := checklist_txt;
                nextId := getNextId (foldl effect store cmds) |}, w').
Proof.
  intros Hwf Hcin Hfuel Hopen.
  destruct (main_session indeterminate cmds rest fuel w Hwf Hcin Hfuel)
    as (store & w' & Hctor & Hmain & _ & Hsaved).
  exists store, w'. destruct (Hsaved Hopen) as [Hfiles Hcerr].
  split; [done |]. split; [done |].
  unfold ChecklistManager_ctor, bind, loadTasks. cbn [filename].
  rewrite Hfiles, lookup_insert_eq, parse_tasks_written; [done |].
  destruct (ctor_result "checklist.txt" w) as (loaded & Hctor' & _ & Hnone & Hsome).
  rewrite Hctor in Hctor'. injection Hctor' as ->.
  apply session_wf; [| apply wrap_int_range | done]. cbn [tasks].
  destruct (files (fs w) !! "checklist.txt") as [content |] eqn:Hfile.
  - eapply parse_tasks_wf. by apply Hsome.
  - rewrite Hnone by done. constructor.
Qed.

Lemma session_then_restart_witness :
  exists store w',
    ChecklistManager_ctor "checklist.txt"
      (quiet_world no_files (script [Add (txt "Buy milk"); Toggle 1]))
    = (Ok store, quiet_world no_files (script [Add (txt "Buy milk"); Toggle 1]))
    /\ main 7 3 (quiet_world no_files (script [Add (txt "Buy milk"); Toggle 1])) = (Ok 0, w')
    /\ ChecklistManager_ctor "checklist.txt" w'
       = (Ok {| tasks := tasks (foldl effect store [Add (txt "Buy milk"); Toggle 1]);
                fileHandler := checklist_txt;
                nextId := getNextId (foldl effect store [Add (txt "Buy milk"); Toggle 1]) |},
          w').
Proof.
  apply (session_then_restart 7 [Add (txt "Buy milk"); Toggle 1] []).
  - apply Forall_cons; split; [apply (bool_decide_unpack _); by vm_compute |].
    apply Forall_cons; split; [by vm_compute | apply List.Forall_nil].
  - cbn [cin quiet_world]. by rewrite app_nil_r.
  - simpl. lia.
  - apply (bool_decide_unpack _). by vm_compute.
Defined.

(** ** Input that the menu cannot read *)

Lemma extract_int_on_failed s old :
  failbit s = true -> extract_int s old = (set_fail s, old).
Proof.
  intros Hf. unfold extract_int, sentry, good. by rewrite Hf, andb_false_r.
Qed.

Lemma ignore_on_failed s : failbit s = true -> failbit (ignore s) = true.
Proof.
  intros Hf. unfold ignore, sentry, good. by rewrite Hf, andb_false_r.
Qed.

(** Once an extraction of the choice has failed and has left a value
    that is none of the five choices, every later round does the same:
    the loop prints the message of the default case and never returns. *)
Lemma run_loop_never_returns ind fuel choice input this w :
  failbit (extract_int (cin w) choice).1 = true ->
  ~ (1 <= (extract_int (cin w) choice).2 <= 5) ->
  (run_loop ind fuel choice input this w).1 = OutOfFuel.
Proof.
  revert choice w. induction fuel as [| fuel IH]; intros choice w Hfail Hchoice; [done |].
  cbn [run_loop]. unfold displayMenu.
  rewrite bind_print, bind_on_cin. cbn [cin said].
  rewrite bind_on_cin. cbn [cin with_cin fst snd].
  rewrite !(proj2 (Z.eqb_neq _ _)) by lia. rewrite bind_print.
  apply IH; cbn [cin said with_cin];
    rewrite extract_int_on_failed by (by apply ignore_on_failed); done.
Qed.

Lemma main_never_returns ind fuel w :
  failbit (extract_int (cin w) ind).1 = true ->
  ~ (1 <= (extract_int (cin w) ind).2 <= 5) ->
  (main ind fuel w).1 = OutOfFuel.
Proof.
  intros Hfail Hchoice. unfold main, try_catch, Menu_ctor, run.
  unfold bind at 1 2.
  destruct (ctor_result "checklist.txt" w) as (loaded & -> & _). cbn [ret].
  set (menu := {| manager := _ |}). unfold bind at 1.
  pose proof (run_loop_never_returns ind fuel ind [] menu w Hfail Hchoice) as Hspin.
  by destruct (run_loop ind fuel ind [] menu w) as [[] ?]; cbn [fst] in Hspin.
Qed.

(** X22.  A choice that is not a number hangs the menu: when the first
    thing typed, after white space, is a character that is neither a
    digit nor a sign, [std::cin] fails for good, and [main] never
    returns, however many rounds it is given. *)
Theorem non_numeric_choice_never_returns
    (indeterminate : Z) (fuel : nat) (w : World) (ws : text) (c : ascii) (rest : text) :
  Forall (fun c => isspace c = true) ws ->
  isspace c = false -> isdigit c = false -> code c <> 45 -> code c <> 43 ->
  cin w = open_stream (ws ++ c :: rest) ->
  (main indeterminate fuel w).1 = OutOfFuel.
Proof.
  intros Hws Hsp Hdig Hm Hp Hcin.
  assert (extract_int (cin w) indeterminate
          = ({| buf := c :: rest; eofbit := false; failbit := true |}, 0)) as Hex.
  { rewrite Hcin. unfold extract_int. rewrite sentry_skip by done.
    cbn [negb open_stream buf scan_sign].
    destruct (Z.eqb_spec (code c) 45); [done |].
    destruct (Z.eqb_spec (code c) 43); [done |].
    cbn [scan_digits]. by rewrite Hdig. }
  apply main_never_returns; rewrite Hex; cbn [fst snd]; [done | lia].
Qed.

Lemma non_numeric_choice_never_returns_witness :
  (main 7 50 (quiet_world no_files (lf "x|5|"))).1 = OutOfFuel.
Proof.
  apply (non_numeric_choice_never_returns 7 50 (quiet_world no_files (lf "x|5|"))
           [] (ascii_of_N 120) (lf "|5|")); try reflexivity.
  - constructor.
  - by vm_compute.
  - by vm_compute.
Defined.



(** ** What holds whatever is typed *)

Section Invariant.

(** A property of the store, indexed by the number of rounds still to
    come, that every operation of the menu carries over to the store it
    leaves. *)
Variable Inv : nat -> ChecklistManager -> Prop.

Hypothesis Inv_add : forall n m d, nl ∉ d -> Inv (S n) m -> Inv n (effect m (Add d)).
Hypothesis Inv_remove : forall n m id, Inv (S n) m -> Inv n (effect m (Remove id)).
Hypothesis Inv_toggle : forall n m id, Inv (S n) m -> Inv n (effect m (Toggle id)).
Hypothesis Inv_idle : forall n m, Inv (S n) m -> Inv n m.

Lemma run_loop_invariant ind fuel choice input this w menu' w' :
  Inv fuel (manager this) -> nl ∉ input ->
  run_loop ind fuel choice input this w = (Ok menu', w') ->
  (exists n, Inv n (manager menu')) /\ same_outside w w'.
Proof.
  revert choice input this w.
  induction fuel as [| fuel IH]; intros choice input this w HI Hinput Hrun; [done |].
  cbn [run_loop] in Hrun. unfold displayMenu in Hrun.
  rewrite bind_print, bind_on_cin in Hrun. cbn [cin said] in Hrun.
  rewrite bind_on_cin in Hrun. cbn [cin with_cin fst snd] in Hrun.
  set (choice' := (extract_int (cin w) choice).2) in Hrun.
  set (w0 := with_cin _ (with_cin _ (said _ w))) in Hrun.
  assert (same_outside w w0) as Hw0 by done.
  destruct (choice' =? 1).
  { rewrite bind_print, bind_on_cin in Hrun. cbn [cin said] in Hrun.
    unfold bind at 1 in Hrun. rewrite addTask_result in Hrun.
    apply IH in Hrun as [Hn Hout]; [split; [done |] | |].
    - destruct Hout as [Hfs Herr]. by split.
    - cbn [manager]. apply (Inv_add fuel (manager this)); [by apply getline_no_nl | done].
    - by apply getline_no_nl. }
  destruct (choice' =? 2).
  { rewrite bind_print, bind_on_cin in Hrun. cbn [cin said] in Hrun.
    unfold bind at 1 in Hrun.
    match type of Hrun with context [removeTask ?i ?m ?x] =>
      destruct (removeTask_effect i m x) as (w2 & Hrem & Hout2 & _) end.
    rewrite Hrem in Hrun.
    apply IH in Hrun as [Hn Hout]; [split; [done |] | by apply Inv_remove | done].
    eapply same_outside_trans; [| exact Hout]. destruct Hout2. by split. }
  destruct (choice' =? 3).
  { rewrite bind_print, bind_on_cin in Hrun. cbn [cin said] in Hrun.
    unfold bind at 1 in Hrun.
    match type of Hrun with context [toggleTask ?i ?m ?x] =>
      destruct (toggleTask_effect i m x) as (w2 & Htog & Hout2 & _) end.
    rewrite Htog in Hrun.
    apply IH in Hrun as [Hn Hout]; [split; [done |] | by apply Inv_toggle | done].
    eapply same_outside_trans; [| exact Hout]. destruct Hout2. by split. }
  destruct (choice' =? 4).
  { unfold bind at 1 in Hrun.
    destruct (listTasks_effect (manager this) w0) as (w2 & Hlist & Hout2 & _).
    rewrite Hlist in Hrun.
    apply IH in Hrun as [Hn Hout]; [split; [done |] | by apply Inv_idle | done].
    eapply same_outside_trans; [| exact Hout]. by eapply same_outside_trans. }
  destruct (choice' =? 5).
  { rewrite bind_print in Hrun. injection Hrun as <- <-.
    split; [| done]. exists fuel. by apply Inv_idle. }
  rewrite bind_print in Hrun.
  apply IH in Hrun as [Hn Hout]; [split; [done |] | by apply Inv_idle | done].
  destruct Hout. by split.
Qed.

End Invariant.

Lemma effect_toggle_cases m id :
  effect m (Toggle id) = m
  \/ exists it, effect m (Toggle id)
                = {| tasks := alter toggleComplete it (tasks m);
                     fileHandler := fileHandler m; nextId := nextId m |}.
Proof.
  cbn [effect]. destruct (first_with_id id (tasks m)) as [[it task] |]; [right | by left].
  by exists it.
Qed.

(** X24.  Ids stay unique whatever is typed: when [Menu::run] starts on
    a store whose ids are distinct and below its counter, and the
    counter cannot reach [INT_MAX] within the rounds that are run, then
    on any input on which [run] returns the store it leaves has
    distinct ids below its counter too. *)
Theorem run_keeps_ids_unique
    (indeterminate : Z) (fuel : nat) (this : Menu) (w : World) (menu' : Menu) (w' : World) :
  store_ok (manager this) ->
  nextId (manager this) + Z.of_nat fuel <= INT_MAX ->
  run indeterminate fuel this w = (Ok menu', w') ->
  store_ok (manager menu').
Proof.
  intros Hok Hmax Hrun. unfold run in Hrun.
  apply (run_loop_invariant
           (fun n m => store_ok m /\ nextId m + Z.of_nat n <= INT_MAX)) in Hrun
    as [(n & Hn & _) _]; try done.
  - intros n m d _ [Hm Hb]. split; [apply store_ok_add; [done | lia] |].
    cbn [effect nextId]. destruct Hm as (Hint & _).
    rewrite wrap_int_id; unfold in_int, INT_MIN, INT_MAX in *; lia.
  - intros n m id [Hm Hb]. split; [by apply store_ok_remove | cbn [effect nextId]; lia].
  - intros n m id [Hm Hb]. destruct (effect_toggle_cases m id) as [-> | [it ->]].
    + split; [done | lia].
    + split; [by apply store_ok_toggle | cbn [nextId]; lia].
  - intros n m [Hm Hb]. split; [done | lia].
  - by apply not_elem_of_nil.
Qed.

Lemma run_keeps_ids_unique_witness :
  exists menu' w',
    run 7 4 {| manager := three_tasks |}
      (quiet_world no_files (script [Add (txt "Call home"); Remove 2; Toggle 9]))
    = (Ok menu', w')
    /\ store_ok (manager menu').
Proof.
  eexists _, _. split; [by vm_compute |].
  eapply (run_keeps_ids_unique 7 4 {| manager := three_tasks |}
            (quiet_world no_files (script [Add (txt "Call home"); Remove 2; Toggle 9]))).
  - apply store_ok_three_tasks.
  - by vm_compute.
  - by vm_compute.
Defined.

Lemma ctor_wf fname w :
  exists this,
    ChecklistManager_ctor fname w = (Ok this, w)
    /\ Forall wf_task (tasks this) /\ in_int (nextId this)
    /\ fileHandler this = {| filename := fname |}.
Proof.
  destruct (ctor_result fname w) as (loaded & Hctor & _ & Hnone & Hsome).
  eexists. split; [exact Hctor |]. cbn [tasks nextId fileHandler].
  split; [| split; [apply wrap_int_range | done]].
  destruct (files (fs w) !! fname) as [content |] eqn:Hfile.
  - eapply parse_tasks_wf. by apply Hsome.
  - rewrite Hnone by done. constructor.
Qed.

(** X25.  Whatever is typed, what [main] saves is what the next run
    loads: when the file can be written and [main] returns, the file
    holds the lines of a sequence of well-formed tasks, and constructing
    the store again from that file loads that very sequence. *)
Theorem any_run_is_reloaded (indeterminate : Z) (fuel : nat) (w w' : World) :
  "checklist.txt" ∉ locked (fs w) ->
  main indeterminate fuel w = (Ok 0, w') ->
  exists final,
    files (fs w') !! "checklist.txt" = Some (write_tasks (tasks final))
    /\ Forall wf_task (tasks final)
    /\ ChecklistManager_ctor "checklist.txt" w'
       = (Ok {| tasks := tasks final; fileHandler := checklist_txt;
                nextId := getNextId final |}, w').
Proof.
  intros Hopen Hmain. unfold main, try_catch, Menu_ctor, Menu_dtor, run in Hmain.
  unfold bind at 1 2 in Hmain.
  destruct (ctor_wf "checklist.txt" w) as (store & Hctor & Hwf & Hint & Hfh).
  rewrite Hctor in Hmain. cbn [ret] in Hmain. unfold bind at 1 in Hmain.
  destruct (run_loop indeterminate fuel indeterminate [] {| manager := store |} w)
    as [[menu' | what |] w1] eqn:Hrun; [| | done].
  2:{ unfold bind, eprint, ret in Hmain. by injection Hmain. }
  apply (run_loop_invariant
           (fun _ m => Forall wf_task (tasks m) /\ in_int (nextId m)
                       /\ fileHandler m = checklist_txt)) in Hrun
    as [(_ & Hwf' & _ & Hfh') [Hfs Herr]]; try done.
  - unfold bind at 1 in Hmain.
    unfold ChecklistManager_dtor, try_catch in Hmain.
    rewrite saveTasks_saved in Hmain by (by rewrite Hfh', Hfs).
    unfold bind, ret in Hmain. injection Hmain as <-.
    exists (manager menu'). rewrite Hfh'. cbn [saved fs files filename checklist_txt].
    split; [apply lookup_insert_eq |]. split; [done |].
    unfold ChecklistManager_ctor, bind, loadTasks. cbn [saved filename fs files].
    by rewrite lookup_insert_eq, parse_tasks_written.
  - intros _ m d Hd (Hm & Hn & Hf).
    destruct (effect_wf m (Add d) Hm Hn Hd) as [Hm' Hn']. by split_and!.
  - intros _ m id (Hm & Hn & Hf).
    split_and!; [| done | done]. cbn [effect tasks]. rewrite Forall_forall in *.
    intros task [_ Hin]%list_elem_of_filter. by apply Hm.
  - intros _ m id (Hm & Hn & Hf).
    destruct (effect_toggle_cases m id) as [-> | [it ->]]; [done |].
    split_and!; [| done | done]. cbn [tasks].
    apply Forall_alter; [done |]. by intros [d c j] _.
  - by apply not_elem_of_nil.
Qed.

Lemma any_run_is_reloaded_witness :
  exists final,
    files (fs (main 7 4 (quiet_world no_files (lf "1|Buy milk|9|-3|5|"))).2) !! "checklist.txt"
    = Some (write_tasks (tasks final))
    /\ Forall wf_task (tasks final)
    /\ ChecklistManager_ctor "checklist.txt"
         (main 7 4 (quiet_world no_files (lf "1|Buy milk|9|-3|5|"))).2
       = (Ok {| tasks := tasks final; fileHandler := checklist_txt;
                nextId := getNextId final |},
          (main 7 4 (quiet_world no_files (lf "1|Buy milk|9|-3|5|"))).2).
Proof.
  apply (any_run_is_reloaded 7 4 (quiet_world no_files (lf "1|Buy milk|9|-3|5|"))).
  - apply (bool_decide_unpack _). by vm_compute.
  - by vm_compute.
Defined.
